(** * A shallow embedding of the search engine of [eval.py]

    The engine is a fixed-depth negamax search with alpha-beta pruning over
    python-chess boards, a static move ordering, a material evaluator and a
    root scheduler that maps one search per root move over a process pool.

    python-chess itself is not part of the repository: the board is reached
    through the [PositionAdapter] interface below, which lists exactly the
    operations [eval.py] calls on it. *)

From Stdlib Require Import ZArith List Bool Lia Permutation Sorted PeanoNat.
Import ListNotations.
Open Scope Z_scope.

(** ** Data of python-chess that the engine inspects *)

(** [chess.PAWN .. chess.KING]. *)
Inductive PieceType : Type := PAWN | KNIGHT | BISHOP | ROOK | QUEEN | KING.

(** [chess.WHITE], [chess.BLACK]. *)
Inductive Color : Type := WHITE | BLACK.

Record Piece : Type := mkPiece { piece_type : PieceType; color : Color }.

(** Squares are the integers 0 (a1) .. 63 (h8). *)
Definition Square : Type := nat.

(** [chess.Move]: origin, destination and the piece promoted to, if any. *)
Record Move : Type := mkMove
  { from_square : Square; to_square : Square; promotion : option PieceType }.

Definition PieceType_eqb (x y : PieceType) : bool :=
  match x, y with
  | PAWN, PAWN | KNIGHT, KNIGHT | BISHOP, BISHOP
  | ROOK, ROOK | QUEEN, QUEEN | KING, KING => true
  | _, _ => false
  end.

Definition Color_eqb (x y : Color) : bool :=
  match x, y with
  | WHITE, WHITE | BLACK, BLACK => true
  | _, _ => false
  end.

Definition swap_color (c : Color) : Color :=
  match c with WHITE => BLACK | BLACK => WHITE end.

Definition swap_piece (p : Piece) : Piece :=
  {| piece_type := piece_type p; color := swap_color (color p) |}.

(** [chess.square_mirror]: the vertical flip, [square ^ 0x38]. *)
Definition square_mirror (sq : Square) : Square := Nat.lxor sq 56.

(** The order in which [Board.piece_map] visits the board: from h8 down to a1. *)
Definition SQUARES_REVERSED : list Square := rev (seq 0 64).

(** ** Constants of [eval.py] *)

Definition INFINITY : Z := 100000.

(** A Python dict with [PieceType] keys, in insertion order. *)
Definition dict (V : Type) : Type := list (PieceType * V).

Fixpoint dict_find {V : Type} (d : dict V) (k : PieceType) : option V :=
  match d with
  | [] => None
  | (k', v) :: d' => if PieceType_eqb k k' then Some v else dict_find d' k
  end.

(** [d.get(k, default)]. *)
Definition dict_get {V : Type} (d : dict V) (k : PieceType) (default : V) : V :=
  match dict_find d k with Some v => v | None => default end.

Definition material_weights : dict Z :=
  [ (PAWN, 100); (KNIGHT, 320); (BISHOP, 330); (ROOK, 500); (QUEEN, 900) ].

(** ** The board interface *)

(** What [eval.py] asks of a [chess.Board]: [board.legal_moves],
    [board.is_capture(move)], [board.is_game_over()], the pieces behind
    [board.piece_map()], [board.push(move)], [board.pop()], [board.fen()] and
    [chess.Board(fen)].  [pop] is partial: python-chess raises [IndexError]
    when the move stack is empty. *)
Class PositionAdapter (Board Fen : Type) : Type :=
  { legal_moves : Board -> list Move;
    is_capture : Board -> Move -> bool;
    is_game_over : Board -> bool;
    piece_at : Board -> Square -> option Piece;
    push : Board -> Move -> Board;
    pop : Board -> option Board;
    fen : Board -> Fen;
    board_of_fen : Fen -> Board }.

(** Two facts about python-chess that some theorems rely on.  [push] saves the
    whole board state and [pop] restores it; checkmate and stalemate, the
    positions without a legal move, are among the outcomes [is_game_over]
    reports. *)
Definition PopRestores {Board Fen : Type} (PA : PositionAdapter Board Fen) : Prop :=
  forall (b : Board) (m : Move), pop (push b m) = Some b.

Definition NoMoveIsGameOver {Board Fen : Type} (PA : PositionAdapter Board Fen) : Prop :=
  forall b : Board, legal_moves b = [] -> is_game_over b = true.

(** ** Outcomes of running Python code *)

Inductive exn : Type := IndexError.

(** A call returns a value, raises, or is still running when the fuel of the
    model is spent. *)
Inductive outcome (A : Type) : Type :=
| Ret (a : A)
| Raise (e : exn)
| OutOfFuel.

Arguments Ret {A} a.
Arguments Raise {A} e.
Arguments OutOfFuel {A}.

Definition outcome_bind {A B : Type} (o : outcome A) (k : A -> outcome B) : outcome B :=
  match o with
  | Ret a => k a
  | Raise e => Raise e
  | OutOfFuel => OutOfFuel
  end.

(** [pool.map(f, args)]: the results come back in the order of [args]; a task
    that raises makes the whole call raise. *)
Fixpoint pool_map {A B : Type} (f : A -> outcome B) (args : list A) : outcome (list B) :=
  match args with
  | [] => Ret []
  | a :: rest =>
      outcome_bind (f a) (fun r =>
      outcome_bind (pool_map f rest) (fun rs => Ret (r :: rs)))
  end.

(** [list.sort(key=..., reverse=True)]: Python's sort is stable, also when
    reversed, so a move goes in front of the first move whose key is not
    greater than its own. *)
Section SortByKey.
Context {A : Type} (key : A -> Z).

Fixpoint insert_desc (x : A) (l : list A) : list A :=
  match l with
  | [] => [x]
  | y :: l' => if key x <? key y then y :: insert_desc x l' else x :: y :: l'
  end.

Fixpoint sort_desc (l : list A) : list A :=
  match l with
  | [] => []
  | x :: l' => insert_desc x (sort_desc l')
  end.

(** The order the sorted list is in: no key is below a later one. *)
Definition key_ge (x y : A) : Prop := key y <= key x.
End SortByKey.

(** ** The engine *)

Section Engine.
Context {Board Fen : Type} {PA : PositionAdapter Board Fen}.

(** Code that works on the one mutable board it was handed. *)
Definition M (A : Type) : Type := Board -> outcome (A * Board).

Definition ret {A : Type} (a : A) : M A := fun b => Ret (a, b).

Definition bind {A B : Type} (m : M A) (k : A -> M B) : M B :=
  fun b =>
    match m b with
    | Ret (a, b') => k a b'
    | Raise e => Raise e
    | OutOfFuel => OutOfFuel
    end.

Definition read {A : Type} (f : Board -> A) : M A := fun b => Ret (f b, b).

Definition board_push (move : Move) : M unit := fun b => Ret (tt, push b move).

Definition board_pop : M unit :=
  fun b =>
    match pop b with
    | Some b' => Ret (tt, b')
    | None => Raise IndexError
    end.

Definition lift {A : Type} (o : outcome A) : M A :=
  fun b => outcome_bind o (fun a => Ret (a, b)).

Local Notation "x <- m ;; k" := (bind m (fun x => k))
  (at level 61, m at next level, right associativity).
Local Notation "m ;;; k" := (bind m (fun _ => k))
  (at level 61, right associativity).

(** [board.piece_map()]: the occupied squares with their pieces. *)
Definition piece_map (board : Board) : list (Square * Piece) :=
  flat_map
    (fun sq => match piece_at board sq with Some p => [(sq, p)] | None => [] end)
    SQUARES_REVERSED.

Definition evaluate_board (board : Board) : Z :=
  fold_left
    (fun material piece =>
       let value := dict_get material_weights (piece_type piece) 0 in
       if Color_eqb (color piece) WHITE then material + value else material - value)
    (map snd (piece_map board)) 0.

(** [move.promotion] is [None] or a piece type, and every piece type is
    truthy; [material_weights[chess.QUEEN]] cannot raise, the key is there. *)
Definition move_score (board : Board) (move : Move) : Z :=
  match promotion move with
  | Some _ => dict_get material_weights QUEEN 0
  | None => if is_capture board move then 1 else 0
  end.

Definition order_moves (board : Board) : list Move :=
  let moves := legal_moves board in
  sort_desc (move_score board) moves.

(** The [for move in order_moves(board)] loop of [negamax]; [search] is the
    recursive call. *)
Fixpoint negamax_loop (search : Z -> Z -> Z -> Z -> M Z)
    (depth beta color : Z) (moves : list Move) (max_eval alpha : Z) : M Z :=
  match moves with
  | [] => ret max_eval
  | move :: rest =>
      board_push move ;;;
      r <- search (depth - 1) (- beta) (- alpha) (- color) ;;
      board_pop ;;;
      let eval := - r in
      let max_eval := if eval >? max_eval then eval else max_eval in
      let alpha := if max_eval >? alpha then max_eval else alpha in
      if alpha >=? beta then ret max_eval
      else negamax_loop search depth beta color rest max_eval alpha
  end.

(** [fuel] bounds the nesting of the recursive calls, which Python leaves
    unbounded: a search to a depth [d >= 0] nests [d + 1] calls, one with a
    negative depth goes on until the game is over. *)
Fixpoint negamax (fuel : nat) (depth alpha beta color : Z) : M Z :=
  match fuel with
  | O => fun _ => OutOfFuel
  | S fuel' =>
      over <- read is_game_over ;;
      if (depth =? 0) || over then
        material <- read evaluate_board ;;
        ret (color * material)
      else
        moves <- read order_moves ;;
        negamax_loop (negamax fuel') depth beta color moves (- INFINITY) alpha
  end.

(** A worker: it builds its own board from the FEN string. *)
Definition evaluate_move (fuel : nat) (args : Move * Fen * Z) : outcome (Move * Z) :=
  let '(move, board_fen, depth) := args in
  let board := board_of_fen board_fen in
  outcome_bind
    ((board_push move ;;;
      r <- negamax fuel (depth - 1) (- INFINITY) INFINITY (-1) ;;
      ret (move, - r)) board)
    (fun res => Ret (fst res)).

(** The reduction loop at the end of [choose_best_move]. *)
Definition best_of (results : list (Move * Z)) : option Move * Z :=
  fold_left
    (fun (acc : option Move * Z) (res : Move * Z) =>
       let '(best_move, max_eval) := acc in
       let '(move, eval) := res in
       if eval >? max_eval then (Some move, eval) else (best_move, max_eval))
    results (None, - INFINITY).

(** The tasks do not share anything and [pool.map] gives their results in
    the order of the arguments, so the pool is the ordered map [pool_map]. *)
Definition choose_best_move (fuel : nat) (max_depth : Z) : M (option Move) :=
  board_fen <- read fen ;;
  moves <- read order_moves ;;
  let args := map (fun move => (move, board_fen, max_depth)) moves in
  results <- lift (pool_map (evaluate_move fuel) args) ;;
  ret (fst (best_of results)).

(** The reference the pruned search is compared with, in the words of the
    specification: the full-width fixed-depth minimax, that is negamax over
    every legal move with no cutoff (and so no window), with the same test for
    a leaf and the same [evaluate_board]. *)
Fixpoint minimax (depth : nat) (board : Board) (color : Z) : Z :=
  match depth with
  | O => color * evaluate_board board
  | S depth' =>
      if is_game_over board then color * evaluate_board board
      else
        fold_left
          (fun best move => Z.max best (- minimax depth' (push board move) (- color)))
          (legal_moves board) (- INFINITY)
  end.

End Engine.

(** ** The search as a function of the position

    When [pop] undoes [push], the board a call of [negamax] works on is the
    same before and after, and the score is this function of it. *)

Section SearchValue.
Context {Board Fen : Type} {PA : PositionAdapter Board Fen}.

Fixpoint search_loop (search : Board -> Z -> Z -> Z -> Z) (board : Board)
    (beta color : Z) (moves : list Move) (max_eval alpha : Z) : Z :=
  match moves with
  | [] => max_eval
  | move :: rest =>
      let eval := - search (push board move) (- beta) (- alpha) (- color) in
      let max_eval := if eval >? max_eval then eval else max_eval in
      let alpha := if max_eval >? alpha then max_eval else alpha in
      if alpha >=? beta then max_eval
      else search_loop search board beta color rest max_eval alpha
  end.

Fixpoint search (depth : nat) (board : Board) (alpha beta color : Z) : Z :=
  match depth with
  | O => color * evaluate_board board
  | S depth' =>
      if is_game_over board then color * evaluate_board board
      else search_loop (search depth') board beta color (order_moves board)
             (- INFINITY) alpha
  end.

(** The unpruned loop of [minimax]. *)
Definition full_loop (value : Move -> Z) (moves : list Move) (best : Z) : Z :=
  fold_left (fun best move => Z.max best (value move)) moves best.

(** What a fail-soft alpha-beta result [r] says about the exact value [v]:
    at or below the window it is an upper bound, at or above it a lower
    bound, and strictly inside it is exact. *)
Definition fail_soft (r v alpha beta : Z) : Prop :=
  (r <= alpha -> v <= r) /\ (alpha < r < beta -> v = r) /\ (beta <= r -> r <= v).

(** A call either is cut short by the fuel or returns with the board as it
    found it; it never raises. *)
Definition restoring (run : @M Board Z) : Prop :=
  forall b,
    match run b with
    | Ret (_, b') => b' = b
    | Raise _ => False
    | OutOfFuel => True
    end.

Definition sum_over (f : Square -> Z) (squares : list Square) : Z :=
  fold_right (fun sq acc => f sq + acc) 0 squares.

(** The signed weight a square adds to the material balance. *)
Definition square_value (board : Board) (sq : Square) : Z :=
  match piece_at board sq with
  | None => 0
  | Some piece =>
      let value := dict_get material_weights (piece_type piece) 0 in
      if Color_eqb (color piece) WHITE then value else - value
  end.

(** [mirror] is the colour-mirrored counterpart of [board]: what stands on a
    square of [board] stands, with the other colour, on the vertically
    flipped square of [mirror]. *)
Definition color_mirrored (board mirror : Board) : Prop :=
  forall sq : Square, (sq < 64)%nat ->
    piece_at mirror (square_mirror sq) = option_map swap_piece (piece_at board sq).

End SearchValue.

(** ** A board given by its game tree

    An instance of the interface for positions whose game tree is written out
    up to the horizon of the search: a node holds the piece placement, whether
    python-chess reports the game over there, and the legal moves with their
    capture flag and the position each leads to.  A node without moves counts
    as over; nodes cut off at the horizon are only ever reached at depth 0,
    where [negamax] does not look at the flag. *)

#[warnings="-register-all"]
Inductive GameTree : Type :=
| Node (placement : list (Square * Piece)) (over : bool)
       (children : list (Move * bool * GameTree)).

Definition placement_of (t : GameTree) : list (Square * Piece) :=
  match t with Node pl _ _ => pl end.

Definition over_of (t : GameTree) : bool :=
  match t with Node _ o _ => o end.

Definition children_of (t : GameTree) : list (Move * bool * GameTree) :=
  match t with Node _ _ ch => ch end.

(** The board object: the current node and the states saved by [push]. *)
Record TreeBoard : Type := mkTreeBoard
  { current : GameTree; saved : list GameTree }.

Definition option_eqb {A : Type} (eqb : A -> A -> bool) (x y : option A) : bool :=
  match x, y with
  | None, None => true
  | Some a, Some b => eqb a b
  | _, _ => false
  end.

Definition Move_eqb (x y : Move) : bool :=
  Nat.eqb (from_square x) (from_square y)
  && Nat.eqb (to_square x) (to_square y)
  && option_eqb PieceType_eqb (promotion x) (promotion y).

Definition find_child (t : GameTree) (m : Move) : option (Move * bool * GameTree) :=
  find (fun c => Move_eqb (fst (fst c)) m) (children_of t).

Definition tree_push (b : TreeBoard) (m : Move) : TreeBoard :=
  {| current := match find_child (current b) m with
                | Some c => snd c
                | None => current b
                end;
     saved := current b :: saved b |}.

Definition tree_pop (b : TreeBoard) : option TreeBoard :=
  match saved b with
  | [] => None
  | t :: rest => Some {| current := t; saved := rest |}
  end.

#[export] Instance tree_adapter : PositionAdapter TreeBoard GameTree :=
  {| legal_moves := fun b => map (fun c => fst (fst c)) (children_of (current b));
     is_capture := fun b m =>
       match find_child (current b) m with
       | Some c => snd (fst c)
       | None => false
       end;
     is_game_over := fun b =>
       over_of (current b)
       || match children_of (current b) with [] => true | _ :: _ => false end;
     piece_at := fun b sq =>
       option_map snd (find (fun e => Nat.eqb (fst e) sq) (placement_of (current b)));
     push := tree_push;
     pop := tree_pop;
     fen := current;
     board_of_fen := fun t => {| current := t; saved := [] |} |}.

(** The placement after a move: the piece leaves its square, replaces what
    stood on the destination and becomes the promotion piece if there is one. *)
Definition placement_after (pl : list (Square * Piece)) (m : Move)
  : list (Square * Piece) :=
  match find (fun e => Nat.eqb (fst e) (from_square m)) pl with
  | None => pl
  | Some (_, p) =>
      let moved :=
        match promotion m with
        | Some pt => {| piece_type := pt; color := color p |}
        | None => p
        end in
      (to_square m, moved)
        :: filter (fun e => negb (Nat.eqb (fst e) (from_square m))
                            && negb (Nat.eqb (fst e) (to_square m))) pl
  end.

(** The children of a position one ply above the horizon: [moves] are its
    legal moves with their capture flags. *)
Definition leaves (pl : list (Square * Piece)) (moves : list (Move * bool))
  : list (Move * bool * GameTree) :=
  map (fun mc => (fst mc, snd mc, Node (placement_after pl (fst mc)) false [])) moves.

Definition one_ply (pl : list (Square * Piece)) (moves : list (Move * bool))
  : GameTree :=
  Node pl false (leaves pl moves).

Definition white_king : Piece := mkPiece KING WHITE.
Definition black_king : Piece := mkPiece KING BLACK.
Definition white_pawn : Piece := mkPiece PAWN WHITE.
Definition black_pawn : Piece := mkPiece PAWN BLACK.
Definition black_rook : Piece := mkPiece ROOK BLACK.
Definition black_knight : Piece := mkPiece KNIGHT BLACK.

(** Squares by name. *)
Definition a1 : Square := 0%nat.
Definition b1 : Square := 1%nat.
Definition g1 : Square := 6%nat.
Definition h1 : Square := 7%nat.
Definition a2 : Square := 8%nat.
Definition b2 : Square := 9%nat.
Definition g2 : Square := 14%nat.
Definition h2 : Square := 15%nat.
Definition a7 : Square := 48%nat.
Definition b7 : Square := 49%nat.
Definition g7 : Square := 54%nat.
Definition h7 : Square := 55%nat.
Definition a8 : Square := 56%nat.
Definition b8 : Square := 57%nat.
Definition g8 : Square := 62%nat.
Definition h8 : Square := 63%nat.

(** [7k/8/8/8/8/8/1p6/K7 w - - 0 1], two plies deep.  The white king on a1 is
    checked by the pawn on b2 and has three legal moves, in the order
    python-chess lists them: Kxb2, Ka2 and Kb1. *)
Definition king_takes_pawn_placement : list (Square * Piece) :=
  [ (h8, black_king); (b2, black_pawn); (a1, white_king) ].

Definition Kxb2 : Move := mkMove a1 b2 None.
Definition Ka2 : Move := mkMove a1 a2 None.
Definition Kb1 : Move := mkMove a1 b1 None.

(** King against king: python-chess reports a draw by insufficient material. *)
Definition after_Kxb2 : GameTree :=
  Node (placement_after king_takes_pawn_placement Kxb2) true [].

(** Black answers Ka2 with a king move or by promoting on b1. *)
Definition after_Ka2 : GameTree :=
  one_ply (placement_after king_takes_pawn_placement Ka2)
    [ (mkMove h8 g8 None, false); (mkMove h8 h7 None, false); (mkMove h8 g7 None, false);
      (mkMove b2 b1 (Some QUEEN), false); (mkMove b2 b1 (Some ROOK), false);
      (mkMove b2 b1 (Some BISHOP), false); (mkMove b2 b1 (Some KNIGHT), false) ].

(** After Kb1 the pawn is blocked and only the black king moves. *)
Definition after_Kb1 : GameTree :=
  one_ply (placement_after king_takes_pawn_placement Kb1)
    [ (mkMove h8 g8 None, false); (mkMove h8 h7 None, false); (mkMove h8 g7 None, false) ].

Definition king_takes_pawn : GameTree :=
  Node king_takes_pawn_placement false
    [ (Kxb2, true, after_Kxb2); (Ka2, false, after_Ka2); (Kb1, false, after_Kb1) ].

(** Its colour-mirrored counterpart, [k7/1P6/8/8/8/8/8/7K]. *)
Definition king_takes_pawn_mirror : GameTree :=
  Node [ (a8, black_king); (b7, white_pawn); (h1, white_king) ] false [].

(** [1r5k/P7/8/8/8/8/6n1/7K w - - 0 1]: the pawn on a7 promotes on a8 or by
    taking the rook on b8, the king takes the knight on g2 or steps aside. *)
Definition promotion_race : GameTree :=
  one_ply
    [ (h8, black_king); (b8, black_rook); (a7, white_pawn);
      (g2, black_knight); (h1, white_king) ]
    [ (mkMove h1 h2 None, false); (mkMove h1 g2 None, true); (mkMove h1 g1 None, false);
      (mkMove a7 b8 (Some QUEEN), true); (mkMove a7 b8 (Some ROOK), true);
      (mkMove a7 b8 (Some BISHOP), true); (mkMove a7 b8 (Some KNIGHT), true);
      (mkMove a7 a8 (Some QUEEN), false); (mkMove a7 a8 (Some ROOK), false);
      (mkMove a7 a8 (Some BISHOP), false); (mkMove a7 a8 (Some KNIGHT), false) ].

(** A stalemate, [7k/5Q2/6K1/8/8/8/8/8 b - - 0 1]: no legal move, game over. *)
Definition stalemate : GameTree :=
  Node [ (h8, black_king); (53%nat, mkPiece QUEEN WHITE); (46%nat, white_king) ] true [].

Definition board_at (t : GameTree) : TreeBoard := {| current := t; saved := [] |}.

(** ** [main.py]: the engine object and the lines a search follows *)

Section EngineObject.
Context {Board Fen : Type} {PA : PositionAdapter Board Fen}.

(** [self.board.set_fen(fen)]: the board takes the state [chess.Board(fen)]
    starts in, the move stack cleared. *)
Definition board_set_fen (board_fen : Fen) : @M Board unit :=
  fun _ => Ret (tt, board_of_fen board_fen).

(** [ChessEngine.make_move]: the state is [self.board]. *)
Definition make_move (fuel : nat) (board_fen : Fen) : @M Board (option Move) :=
  bind (board_set_fen board_fen) (fun _ => choose_best_move fuel 7).

(** The three classes [move_score] tells apart. *)
Definition is_promotion (move : Move) : bool :=
  match promotion move with Some _ => true | None => false end.

Definition is_plain_capture (board : Board) (move : Move) : bool :=
  negb (is_promotion move) && is_capture board move.

Definition is_quiet (board : Board) (move : Move) : bool :=
  negb (is_promotion move) && negb (is_capture board move).

(** [line_to d b leaf]: [leaf] is a position where a search of [b] to depth
    [d] evaluates the material: it is reached from [b] by legal moves through
    positions that are not game over, and either the depth is used up there or
    the game is over. *)
Inductive line_to : nat -> Board -> Board -> Prop :=
| line_horizon (b : Board) : line_to 0 b b
| line_over (d : nat) (b : Board) : is_game_over b = true -> line_to d b b
| line_move (d : nat) (b : Board) (m : Move) (leaf : Board) :
    is_game_over b = false -> In m (legal_moves b) ->
    line_to d (push b m) leaf -> line_to (S d) b leaf.

End EngineObject.

(** More boards for the examples: [4k3/4p3/8/8/8/8/4P3/4K3], which is its own
    colour-mirrored counterpart, and the stalemate above with a rook in place
    of the queen. *)
Definition symmetric_pawns : GameTree :=
  Node [ (60%nat, black_king); (52%nat, black_pawn);
         (12%nat, white_pawn); (4%nat, white_king) ] false [].

Definition rook_for_queen : GameTree :=
  Node [ (h8, black_king); (53%nat, mkPiece ROOK WHITE); (46%nat, white_king) ] false [].

(** * Proofs *)

(** ** The search restores the board and computes [search] *)

Section Value.
Context {Board Fen : Type} {PA : PositionAdapter Board Fen}.
Hypothesis pop_push : PopRestores PA.

Lemma negamax_loop_value (rec : Z -> Z -> Z -> Z -> M Z)
    (value : Board -> Z -> Z -> Z -> Z) (depth : Z) :
  (forall b alpha beta color,
      rec (depth - 1) alpha beta color b = Ret (value b alpha beta color, b)) ->
  forall moves beta color max_eval alpha b,
    negamax_loop rec depth beta color moves max_eval alpha b
    = Ret (search_loop value b beta color moves max_eval alpha, b).
Proof.
  intros Hrec moves beta color.
  induction moves as [|move rest IH]; intros max_eval alpha b.
  - reflexivity.
  - cbn [negamax_loop search_loop].
    unfold bind at 1. unfold board_push.
    unfold bind at 1. rewrite Hrec.
    unfold bind at 1. unfold board_pop. rewrite pop_push.
    cbv zeta.
    destruct (_ >=? beta); [reflexivity | apply IH].
Qed.

Lemma negamax_value (depth : nat) :
  forall fuel, (depth < fuel)%nat ->
  forall b alpha beta color,
    negamax fuel (Z.of_nat depth) alpha beta color b
    = Ret (search depth b alpha beta color, b).
Proof.
  induction depth as [|depth IH]; intros fuel Hfuel b alpha beta color;
    (destruct fuel as [|fuel]; [lia|]).
  - reflexivity.
  - cbn [negamax search]. unfold bind at 1. unfold read at 1.
    replace (Z.of_nat (S depth) =? 0) with false by (symmetry; apply Z.eqb_neq; lia).
    cbn [orb].
    destruct (is_game_over b); [reflexivity|].
    unfold bind at 1. unfold read at 1.
    apply negamax_loop_value.
    intros b' alpha' beta' color'.
    replace (Z.of_nat (S depth) - 1) with (Z.of_nat depth) by lia.
    apply IH. lia.
Qed.

Lemma negamax_returns (fuel : nat) (depth alpha beta color : Z) (b : Board) :
  0 <= depth -> (Z.to_nat depth < fuel)%nat ->
  negamax fuel depth alpha beta color b
  = Ret (search (Z.to_nat depth) b alpha beta color, b).
Proof.
  intros Hd Hfuel.
  rewrite <- (Z2Nat.id depth Hd) at 1.
  now apply negamax_value.
Qed.

End Value.

(** ** Alpha-beta against the full-width search *)

Section AlphaBeta.
Context {Board Fen : Type} {PA : PositionAdapter Board Fen}.

Lemma full_loop_ge (value : Move -> Z) (moves : list Move) :
  forall best, best <= full_loop value moves best.
Proof.
  unfold full_loop.
  induction moves as [|m rest IH]; intros best; cbn [fold_left]; [lia|].
  specialize (IH (Z.max best (value m))). lia.
Qed.

Lemma full_loop_Permutation (value : Move -> Z) (l l' : list Move) :
  Permutation l l' -> forall best, full_loop value l best = full_loop value l' best.
Proof.
  unfold full_loop.
  induction 1 as [|x l l' _ IH|x y l|l l' l'' _ IH1 _ IH2]; intros best;
    cbn [fold_left].
  - reflexivity.
  - apply IH.
  - f_equal. lia.
  - now rewrite IH1.
Qed.

Lemma search_loop_fail_soft (rec : Board -> Z -> Z -> Z -> Z) (value : Move -> Z)
    (b : Board) (alpha0 beta color : Z) :
  - INFINITY <= alpha0 -> beta <= INFINITY ->
  (forall m alpha' beta', - INFINITY <= alpha' < beta' -> beta' <= INFINITY ->
      fail_soft (rec (push b m) alpha' beta' (- color)) (- value m) alpha' beta') ->
  forall moves max_eval best,
    best <= max_eval -> (alpha0 < max_eval -> best = max_eval) ->
    Z.max alpha0 max_eval < beta ->
    fail_soft (search_loop rec b beta color moves max_eval (Z.max alpha0 max_eval))
              (full_loop value moves best) alpha0 beta.
Proof.
  intros Halpha Hbeta Hrec.
  induction moves as [|m rest IH]; intros max_eval best Hle Hexact Hwindow.
  - unfold fail_soft, full_loop; cbn [search_loop fold_left]. lia.
  - cbn [search_loop]. unfold full_loop in *. cbn [fold_left].
    pose proof (Hrec m (- beta) (- Z.max alpha0 max_eval)) as Hm.
    unfold fail_soft in Hm.
    set (eval := - rec (push b m) (- beta) (- Z.max alpha0 max_eval) (- color)) in *.
    cbv zeta.
    rewrite (Z.gtb_ltb eval max_eval).
    destruct (Z.ltb_spec max_eval eval) as [Hgt|Hngt].
    + (* the move raises max_eval *)
      rewrite (Z.gtb_ltb eval), Z.geb_leb.
      destruct (Z.ltb_spec (Z.max alpha0 max_eval) eval) as [Ha|Ha].
      * destruct (Z.leb_spec beta eval) as [Hcut|Hno].
        -- pose proof (full_loop_ge value rest (Z.max best (value m))) as Hge.
           unfold full_loop in Hge. unfold fail_soft. lia.
        -- replace eval with (Z.max alpha0 eval) at 2 by lia.
           apply IH; lia.
      * destruct (Z.leb_spec beta (Z.max alpha0 max_eval)) as [Hcut|Hno]; [lia|].
        replace (Z.max alpha0 max_eval) with (Z.max alpha0 eval) by lia.
        apply IH; lia.
    + rewrite (Z.gtb_ltb max_eval), Z.geb_leb.
      destruct (Z.ltb_spec (Z.max alpha0 max_eval) max_eval) as [Ha|Ha]; [lia|].
      destruct (Z.leb_spec beta (Z.max alpha0 max_eval)) as [Hcut|Hno]; [lia|].
      apply IH; lia.
Qed.

End AlphaBeta.

(** ** The stable descending sort *)

Section SortFacts.
Context {A : Type} (key : A -> Z).

Lemma insert_desc_Permutation (x : A) (l : list A) :
  Permutation (insert_desc key x l) (x :: l).
Proof.
  induction l as [|y l IH]; cbn [insert_desc]; [reflexivity|].
  destruct (key x <? key y); [|reflexivity].
  rewrite IH. apply perm_swap.
Qed.

Lemma sort_desc_Permutation (l : list A) : Permutation (sort_desc key l) l.
Proof.
  induction l as [|x l IH]; cbn [sort_desc]; [reflexivity|].
  rewrite insert_desc_Permutation. now constructor.
Qed.

Lemma insert_desc_sorted (x : A) (l : list A) :
  StronglySorted (key_ge key) l -> StronglySorted (key_ge key) (insert_desc key x l).
Proof.
  induction 1 as [|y l Hl IH Hy]; cbn [insert_desc].
  - repeat constructor.
  - destruct (Z.ltb_spec (key x) (key y)) as [Hlt|Hge].
    + constructor; [exact IH|].
      rewrite (insert_desc_Permutation x l).
      constructor; [unfold key_ge; lia | exact Hy].
    + constructor; [now constructor|].
      constructor; [exact Hge|].
      eapply Forall_impl; [|exact Hy].
      unfold key_ge. intros z Hz. lia.
Qed.

Lemma sort_desc_sorted (l : list A) : StronglySorted (key_ge key) (sort_desc key l).
Proof.
  induction l as [|x l IH]; cbn [sort_desc]; [constructor|].
  now apply insert_desc_sorted.
Qed.

(** In a list sorted by descending key, an element with a strictly greater
    key stands at a strictly smaller index. *)
Lemma sorted_greater_key_first (l : list A) :
  StronglySorted (key_ge key) l ->
  forall (i j : nat) (x y : A),
    nth_error l i = Some x -> nth_error l j = Some y ->
    key y < key x -> (i < j)%nat.
Proof.
  induction 1 as [|z l Hl IH Hz]; intros i j x y Hi Hj Hkey.
  - destruct i; discriminate.
  - destruct i as [|i], j as [|j]; cbn [nth_error] in Hi, Hj.
    + injection Hi as ->. injection Hj as ->. lia.
    + lia.
    + injection Hj as ->.
      apply nth_error_In in Hi.
      rewrite Forall_forall in Hz. specialize (Hz x Hi).
      unfold key_ge in Hz. lia.
    + apply -> Nat.succ_lt_mono. eapply IH; eassumption.
Qed.

End SortFacts.

(** ** The material evaluation *)

Section Material.
Context {Board Fen : Type} {PA : PositionAdapter Board Fen}.

Lemma evaluate_board_sum (b : Board) :
  evaluate_board b = sum_over (square_value b) SQUARES_REVERSED.
Proof.
  unfold evaluate_board, piece_map.
  enough (forall squares material,
    fold_left
      (fun material piece =>
         let value := dict_get material_weights (piece_type piece) 0 in
         if Color_eqb (color piece) WHITE then material + value else material - value)
      (map snd (flat_map
         (fun sq => match piece_at b sq with Some p => [(sq, p)] | None => [] end)
         squares)) material
    = material + sum_over (square_value b) squares) as H
    by (rewrite H; lia).
  induction squares as [|sq squares IH]; intros material.
  - cbn. lia.
  - cbn [flat_map sum_over fold_right]. fold (sum_over (square_value b) squares).
    rewrite map_app, fold_left_app, IH.
    unfold square_value at 2.
    destruct (piece_at b sq) as [piece|]; cbn [map fold_left snd]; cbv zeta.
    + destruct (Color_eqb (color piece) WHITE); lia.
    + lia.
Qed.

Lemma square_value_bound (b : Board) (sq : Square) :
  - 900 <= square_value b sq <= 900.
Proof.
  unfold square_value.
  destruct (piece_at b sq) as [[pt c]|]; [|lia].
  destruct pt, c; cbn; lia.
Qed.

Lemma sum_over_bound (f : Square -> Z) (bound : Z) (squares : list Square) :
  (forall sq, - bound <= f sq <= bound) ->
  - (bound * Z.of_nat (length squares)) <= sum_over f squares
    <= bound * Z.of_nat (length squares).
Proof.
  intros Hf.
  induction squares as [|sq squares IH].
  - cbn. lia.
  - cbn [sum_over fold_right length]. fold (sum_over f squares).
    specialize (Hf sq). lia.
Qed.

Lemma evaluate_board_bound (b : Board) : - 57600 <= evaluate_board b <= 57600.
Proof.
  rewrite evaluate_board_sum.
  pose proof (sum_over_bound (square_value b) 900 SQUARES_REVERSED
                (square_value_bound b)) as H.
  change (Z.of_nat (length SQUARES_REVERSED)) with 64 in H. lia.
Qed.

Lemma sum_over_ext (f g : Square -> Z) (squares : list Square) :
  (forall sq, In sq squares -> f sq = g sq) ->
  sum_over f squares = sum_over g squares.
Proof.
  induction squares as [|sq squares IH]; intros Hfg; [reflexivity|].
  cbn [sum_over fold_right]. fold (sum_over f squares) (sum_over g squares).
  rewrite IH, (Hfg sq); auto using in_eq, in_cons.
Qed.

Lemma sum_over_opp (f : Square -> Z) (squares : list Square) :
  sum_over (fun sq => - f sq) squares = - sum_over f squares.
Proof.
  induction squares as [|sq squares IH]; [reflexivity|].
  cbn [sum_over fold_right].
  fold (sum_over f squares) (sum_over (fun sq => - f sq) squares). lia.
Qed.

(** The vertical flip permutes the 64 squares, so a sum over the board does
    not notice it. *)
Lemma sum_over_mirror (f : Square -> Z) :
  sum_over (fun sq => f (square_mirror sq)) SQUARES_REVERSED
  = sum_over f SQUARES_REVERSED.
Proof.
  cbv - [Z.add]. lia.
Qed.

Lemma In_SQUARES_REVERSED (sq : Square) :
  In sq SQUARES_REVERSED -> (sq < 64)%nat.
Proof.
  unfold SQUARES_REVERSED. rewrite <- in_rev, in_seq. lia.
Qed.

Lemma square_value_swap (b mirror : Board) (sq sq' : Square) :
  piece_at mirror sq' = option_map swap_piece (piece_at b sq) ->
  square_value mirror sq' = - square_value b sq.
Proof.
  unfold square_value. intros ->.
  destruct (piece_at b sq) as [[pt c]|]; cbn; [|reflexivity].
  destruct c; cbn; lia.
Qed.

End Material.

(** ** Bounds on the scores, and the pruned search against the full one *)

Section Scores.
Context {Board Fen : Type} {PA : PositionAdapter Board Fen}.

Lemma order_moves_Permutation (b : Board) :
  Permutation (order_moves b) (legal_moves b).
Proof. apply sort_desc_Permutation. Qed.

Lemma order_moves_nil (b : Board) : order_moves b = [] -> legal_moves b = [].
Proof.
  intros H. apply Permutation_nil.
  rewrite <- H. apply order_moves_Permutation.
Qed.

Lemma leaf_bound (b : Board) (color : Z) :
  color = 1 \/ color = -1 -> - 57600 <= color * evaluate_board b <= 57600.
Proof.
  pose proof (evaluate_board_bound b). intros [->| ->]; lia.
Qed.

Lemma full_loop_bound (value : Move -> Z) (lo hi : Z) (moves : list Move) :
  (forall m, lo <= value m <= hi) ->
  forall best, lo <= best <= hi -> lo <= full_loop value moves best <= hi.
Proof.
  intros Hv. unfold full_loop.
  induction moves as [|m rest IH]; intros best Hb; cbn [fold_left]; [exact Hb|].
  apply IH. specialize (Hv m). lia.
Qed.

Lemma minimax_bound (depth : nat) :
  forall (b : Board) (color : Z), color = 1 \/ color = -1 ->
    - INFINITY <= minimax depth b color <= INFINITY.
Proof.
  induction depth as [|depth IH]; intros b color Hc; cbn [minimax].
  - pose proof (leaf_bound b color Hc). unfold INFINITY. lia.
  - destruct (is_game_over b).
    + pose proof (leaf_bound b color Hc). unfold INFINITY. lia.
    + apply (full_loop_bound
               (fun move => - minimax depth (push b move) (- color)));
        [|unfold INFINITY; lia].
      intros m. specialize (IH (push b m) (- color)). lia.
Qed.

Lemma search_loop_bound (rec : Board -> Z -> Z -> Z -> Z) (b : Board)
    (beta color : Z) :
  (forall b' alpha' beta',
      - INFINITY <= rec b' alpha' beta' (- color) <= INFINITY) ->
  forall moves max_eval alpha, - INFINITY <= max_eval <= INFINITY ->
    - INFINITY <= search_loop rec b beta color moves max_eval alpha <= INFINITY.
Proof.
  intros Hrec.
  induction moves as [|m rest IH]; intros max_eval alpha Hme; cbn [search_loop];
    [exact Hme|].
  cbv zeta.
  specialize (Hrec (push b m) (- beta) (- alpha)).
  destruct (_ >? max_eval).
  - destruct (_ >=? beta); [lia | apply IH; lia].
  - destruct (_ >=? beta); [lia | apply IH; lia].
Qed.

Lemma search_bound (depth : nat) :
  forall (b : Board) (alpha beta color : Z), color = 1 \/ color = -1 ->
    - INFINITY <= search depth b alpha beta color <= INFINITY.
Proof.
  induction depth as [|depth IH]; intros b alpha beta color Hc; cbn [search].
  - pose proof (leaf_bound b color Hc). unfold INFINITY. lia.
  - destruct (is_game_over b).
    + pose proof (leaf_bound b color Hc). unfold INFINITY. lia.
    + apply search_loop_bound; [|unfold INFINITY; lia].
      intros b' alpha' beta'. apply IH. lia.
Qed.

Lemma search_loop_strict (rec : Board -> Z -> Z -> Z -> Z) (b : Board)
    (beta color : Z) :
  (forall b' alpha' beta',
      - INFINITY < rec b' alpha' beta' (- color) < INFINITY) ->
  forall moves max_eval alpha, - INFINITY <= max_eval < INFINITY ->
    max_eval <= search_loop rec b beta color moves max_eval alpha < INFINITY
    /\ (moves <> [] -> - INFINITY < search_loop rec b beta color moves max_eval alpha).
Proof.
  intros Hrec.
  induction moves as [|m rest IH]; intros max_eval alpha Hme; cbn [search_loop].
  - split; [lia | congruence].
  - cbv zeta.
    specialize (Hrec (push b m) (- beta) (- alpha)).
    assert (- INFINITY < - rec (push b m) (- beta) (- alpha) (- color) < INFINITY)
      as Heval by lia.
    set (eval := - rec (push b m) (- beta) (- alpha) (- color)) in *.
    rewrite (Z.gtb_ltb eval max_eval).
    destruct (Z.ltb_spec max_eval eval) as [Hgt|Hle].
    + destruct (_ >=? beta); [split; [lia | intros _; lia]|].
      match goal with
      | |- context [search_loop rec b beta color rest ?me ?a] =>
          destruct (IH me a) as [IH1 _]; [lia|]
      end.
      split; [lia | intros _; lia].
    + destruct (_ >=? beta); [split; [lia | intros _; lia]|].
      match goal with
      | |- context [search_loop rec b beta color rest ?me ?a] =>
          destruct (IH me a) as [IH1 _]; [lia|]
      end.
      split; [lia | intros _; lia].
Qed.

Lemma search_strict (no_move_over : NoMoveIsGameOver PA) (depth : nat) :
  forall (b : Board) (alpha beta color : Z), color = 1 \/ color = -1 ->
    - INFINITY < search depth b alpha beta color < INFINITY.
Proof.
  induction depth as [|depth IH]; intros b alpha beta color Hc; cbn [search].
  - pose proof (leaf_bound b color Hc). unfold INFINITY. lia.
  - destruct (is_game_over b) eqn:Hover.
    + pose proof (leaf_bound b color Hc). unfold INFINITY. lia.
    + destruct (search_loop_strict (search depth) b beta color) with
        (moves := order_moves b) (max_eval := - INFINITY) (alpha := alpha)
        as [H1 H2].
      * intros b' alpha' beta'. apply IH. lia.
      * unfold INFINITY. lia.
      * split; [|lia]. apply H2. intros Hnil.
        apply order_moves_nil, no_move_over in Hnil. congruence.
Qed.

Lemma search_fail_soft (depth : nat) :
  forall (b : Board) (alpha beta color : Z),
    - INFINITY <= alpha < beta -> beta <= INFINITY ->
    fail_soft (search depth b alpha beta color) (minimax depth b color) alpha beta.
Proof.
  induction depth as [|depth IH]; intros b alpha beta color Ha Hb; cbn [search minimax].
  - unfold fail_soft. lia.
  - destruct (is_game_over b); [unfold fail_soft; lia|].
    change (fold_left
              (fun best move => Z.max best (- minimax depth (push b move) (- color)))
              (legal_moves b) (- INFINITY))
      with (full_loop (fun move => - minimax depth (push b move) (- color))
              (legal_moves b) (- INFINITY)).
    rewrite <- (full_loop_Permutation _ _ _ (order_moves_Permutation b)).
    replace alpha with (Z.max alpha (- INFINITY)) at 1 by lia.
    apply search_loop_fail_soft; try lia.
    intros m alpha' beta' Ha' Hb'.
    rewrite Z.opp_involutive. apply IH; lia.
Qed.

Lemma search_full_window (depth : nat) (b : Board) (color : Z) :
  color = 1 \/ color = -1 ->
  search depth b (- INFINITY) INFINITY color = minimax depth b color.
Proof.
  intros Hc.
  pose proof (minimax_bound depth b color Hc) as Hv.
  destruct (search_fail_soft depth b (- INFINITY) INFINITY color) as (H1 & H2 & H3);
    [unfold INFINITY; lia | lia |].
  destruct (Z_lt_le_dec (- INFINITY) (search depth b (- INFINITY) INFINITY color));
    [destruct (Z_lt_le_dec (search depth b (- INFINITY) INFINITY color) INFINITY)|];
    lia.
Qed.

End Scores.

(** ** What a call of [negamax] can do to the board *)

Section Frame.
Context {Board Fen : Type} {PA : PositionAdapter Board Fen}.
Hypothesis pop_push : PopRestores PA.

Lemma negamax_loop_restoring (rec : Z -> Z -> Z -> Z -> M Z) (depth : Z) :
  (forall d alpha beta color, restoring (rec d alpha beta color)) ->
  forall moves beta color max_eval alpha,
    restoring (negamax_loop rec depth beta color moves max_eval alpha).
Proof.
  intros Hrec moves beta color.
  induction moves as [|move rest IH]; intros max_eval alpha b.
  - reflexivity.
  - cbn [negamax_loop].
    unfold bind at 1. unfold board_push.
    unfold bind at 1.
    pose proof (Hrec (depth - 1) (- beta) (- alpha) (- color) (push b move)) as Hr.
    destruct (rec (depth - 1) (- beta) (- alpha) (- color) (push b move))
      as [[r b1]| |]; [subst b1 | contradiction | exact I].
    unfold bind at 1. unfold board_pop. rewrite pop_push.
    cbv zeta.
    destruct (_ >=? beta); [reflexivity | apply IH].
Qed.

Lemma negamax_restoring (fuel : nat) :
  forall depth alpha beta color, restoring (negamax fuel depth alpha beta color).
Proof.
  induction fuel as [|fuel IH]; intros depth alpha beta color b.
  - exact I.
  - cbn [negamax]. unfold bind at 1. unfold read at 1.
    destruct ((depth =? 0) || is_game_over b).
    + reflexivity.
    + unfold bind at 1. unfold read at 1.
      now apply negamax_loop_restoring.
Qed.

Lemma negamax_board (fuel : nat) (depth alpha beta color : Z) (b b' : Board)
    (score : Z) :
  negamax fuel depth alpha beta color b = Ret (score, b') -> b' = b.
Proof.
  intros H. pose proof (negamax_restoring fuel depth alpha beta color b) as Hr.
  now rewrite H in Hr.
Qed.

Lemma negamax_no_raise (fuel : nat) (depth alpha beta color : Z) (b : Board)
    (e : exn) :
  negamax fuel depth alpha beta color b <> Raise e.
Proof.
  intros H. pose proof (negamax_restoring fuel depth alpha beta color b) as Hr.
  now rewrite H in Hr.
Qed.

End Frame.

(** ** A negative depth *)

Section NegativeDepth.
Context {Board Fen : Type} {PA : PositionAdapter Board Fen}.

Lemma negamax_loop_depth (rec : Z -> Z -> Z -> Z -> M Z) (d d' : Z) :
  (forall alpha beta color b,
      rec (d - 1) alpha beta color b = rec (d' - 1) alpha beta color b) ->
  forall moves beta color max_eval alpha b,
    negamax_loop rec d beta color moves max_eval alpha b
    = negamax_loop rec d' beta color moves max_eval alpha b.
Proof.
  intros Hrec moves beta color.
  induction moves as [|move rest IH]; intros max_eval alpha b; [reflexivity|].
  cbn [negamax_loop].
  unfold bind, board_push. rewrite Hrec.
  destruct (rec (d' - 1) (- beta) (- alpha) (- color) (push b move))
    as [[r b1]| |]; try reflexivity.
  destruct (board_pop b1) as [[[] b2]| |]; try reflexivity.
  cbv zeta.
  destruct (_ >=? beta); [reflexivity | apply IH].
Qed.

Lemma negamax_negative_depth (fuel : nat) :
  forall d d' alpha beta color b, d < 0 -> d' < 0 ->
    negamax fuel d alpha beta color b = negamax fuel d' alpha beta color b.
Proof.
  induction fuel as [|fuel IH]; intros d d' alpha beta color b Hd Hd';
    [reflexivity|].
  cbn [negamax]. unfold bind, read.
  replace (d =? 0) with false by (symmetry; apply Z.eqb_neq; lia).
  replace (d' =? 0) with false by (symmetry; apply Z.eqb_neq; lia).
  cbn [orb].
  destruct (is_game_over b); [reflexivity|].
  apply negamax_loop_depth.
  intros alpha' beta' color' b'. apply IH; lia.
Qed.

End NegativeDepth.

(** ** The root scheduler *)

Section Scheduler.
Context {Board Fen : Type} {PA : PositionAdapter Board Fen}.

Lemma pool_map_Ret {A B : Type} (f : A -> outcome B) (g : A -> B) (args : list A) :
  (forall a, In a args -> f a = Ret (g a)) ->
  pool_map f args = Ret (map g args).
Proof.
  induction args as [|a rest IH]; intros Hf; [reflexivity|].
  cbn [pool_map map].
  rewrite (Hf a (in_eq _ _)). cbn [outcome_bind].
  rewrite IH by (intros a' Ha'; apply Hf; now right).
  reflexivity.
Qed.

(** The state of the reduction loop after [results], started from
    [(best_move, max_eval)]. *)
Lemma best_of_loop (results : list (Move * Z)) :
  forall (best_move : option Move) (max_eval : Z),
  exists best score,
    fold_left
      (fun (acc : option Move * Z) (res : Move * Z) =>
         let '(best_move, max_eval) := acc in
         let '(move, eval) := res in
         if eval >? max_eval then (Some move, eval) else (best_move, max_eval))
      results (best_move, max_eval) = (best, score)
    /\ max_eval <= score
    /\ (forall m s, In (m, s) results -> s <= score)
    /\ ((best = best_move /\ score = max_eval)
        \/ (exists m, best = Some m /\ In (m, score) results /\ max_eval < score)).
Proof.
  induction results as [|[move eval] rest IH]; intros best_move max_eval.
  - exists best_move, max_eval. cbn.
    split; [reflexivity|]. split; [lia|]. split; [tauto | now left].
  - cbn [fold_left]. rewrite Z.gtb_ltb.
    destruct (Z.ltb_spec max_eval eval) as [Hgt|Hle].
    + destruct (IH (Some move) eval) as (best & score & -> & Hs & Hall & Hbest).
      exists best, score.
      split; [reflexivity|]. split; [lia|]. split.
      * intros m s [Heq|Hin]; [injection Heq as <- <-; lia | now apply (Hall m s)].
      * right. destruct Hbest as [[-> ->]|(m & -> & Hin & Hlt)].
        -- exists move. split; [reflexivity|]. split; [now left | lia].
        -- exists m. split; [reflexivity|]. split; [now right | lia].
    + destruct (IH best_move max_eval) as (best & score & -> & Hs & Hall & Hbest).
      exists best, score.
      split; [reflexivity|]. split; [lia|]. split.
      * intros m s [Heq|Hin]; [injection Heq as <- <-; lia | now apply (Hall m s)].
      * destruct Hbest as [[-> ->]|(m & -> & Hin & Hlt)]; [now left|].
        right. exists m. split; [reflexivity|]. split; [now right | lia].
Qed.

Lemma best_of_max (results : list (Move * Z)) :
  results <> [] ->
  (forall m s, In (m, s) results -> - INFINITY < s) ->
  exists best score,
    best_of results = (Some best, score)
    /\ In (best, score) results
    /\ (forall m s, In (m, s) results -> s <= score).
Proof.
  intros Hne Hlow. unfold best_of.
  destruct (best_of_loop results None (- INFINITY))
    as (best & score & -> & Hs & Hall & Hbest).
  destruct Hbest as [[-> ->]|(m & -> & Hin & Hlt)].
  - destruct results as [|[m s] rest]; [congruence|].
    pose proof (Hlow m s (in_eq _ _)). pose proof (Hall m s (in_eq _ _)). lia.
  - now exists m, score.
Qed.

Hypothesis pop_push : PopRestores PA.

Lemma evaluate_move_value (fuel : nat) (move : Move) (board_fen : Fen) (depth : Z) :
  1 <= depth -> (Z.to_nat (depth - 1) < fuel)%nat ->
  evaluate_move fuel (move, board_fen, depth)
  = Ret (move, - search (Z.to_nat (depth - 1)) (push (board_of_fen board_fen) move)
                   (- INFINITY) INFINITY (-1)).
Proof.
  intros Hd Hfuel. unfold evaluate_move.
  unfold bind at 1. unfold board_push.
  unfold bind at 1.
  rewrite (negamax_returns pop_push) by lia.
  reflexivity.
Qed.

(** The list [pool.map] hands back: one result per ordered root move. *)
Lemma root_results (fuel : nat) (max_depth : Z) (b : Board) :
  1 <= max_depth -> (Z.to_nat (max_depth - 1) < fuel)%nat ->
  pool_map (evaluate_move fuel)
    (map (fun move => (move, fen b, max_depth)) (order_moves b))
  = Ret (map (fun move =>
                (move, - search (Z.to_nat (max_depth - 1))
                           (push (board_of_fen (fen b)) move)
                           (- INFINITY) INFINITY (-1)))
           (order_moves b)).
Proof.
  intros Hd Hfuel.
  rewrite (pool_map_Ret _
    (fun args : Move * Fen * Z =>
       (fst (fst args),
        - search (Z.to_nat (snd args - 1))
            (push (board_of_fen (snd (fst args))) (fst (fst args)))
            (- INFINITY) INFINITY (-1)))).
  - now rewrite map_map.
  - intros [[move f] d] Hin.
    apply in_map_iff in Hin. destruct Hin as (m & Heq & _).
    injection Heq as <- <- <-.
    now apply evaluate_move_value.
Qed.

End Scheduler.

(** ** The game-tree boards satisfy the two python-chess facts *)

Lemma tree_pop_push : PopRestores tree_adapter.
Proof. intros [t s] m. reflexivity. Qed.

Lemma tree_no_move_over : NoMoveIsGameOver tree_adapter.
Proof.
  intros [[pl o ch] s]. cbn.
  destruct ch; [intros _; apply orb_true_r | discriminate].
Qed.

Lemma king_takes_pawn_mirrored :
  color_mirrored (board_at king_takes_pawn) (board_at king_takes_pawn_mirror).
Proof.
  intros sq Hsq.
  do 64 (destruct sq as [|sq]; [reflexivity|]).
  exfalso. lia.
Qed.

(** * The claims *)

Section Claims.
Context {Board Fen : Type} {PA : PositionAdapter Board Fen}.

(** What [choose_best_move] computes, shared by the claims about it. *)
Lemma choose_best_move_max (pop_push : PopRestores PA)
    (no_move_over : NoMoveIsGameOver PA) (fuel : nat) (max_depth : Z) (b : Board) :
  1 <= max_depth -> (Z.to_nat (max_depth - 1) < fuel)%nat ->
  legal_moves b <> [] ->
  exists results best score,
    pool_map (evaluate_move fuel)
      (map (fun move => (move, fen b, max_depth)) (order_moves b)) = Ret results
    /\ map fst results = order_moves b
    /\ Forall
         (fun res =>
            negamax fuel (max_depth - 1) (- INFINITY) INFINITY (-1)
              (push (board_of_fen (fen b)) (fst res))
            = Ret (- snd res, push (board_of_fen (fen b)) (fst res)))
         results
    /\ choose_best_move fuel max_depth b = Ret (Some best, b)
    /\ In (best, score) results
    /\ (forall m s, In (m, s) results -> s <= score).
Proof.
  intros Hd Hfuel Hmoves.
  set (results :=
         map (fun move =>
                (move, - search (Z.to_nat (max_depth - 1))
                           (push (board_of_fen (fen b)) move)
                           (- INFINITY) INFINITY (-1)))
           (order_moves b)).
  destruct (best_of_max results) as (best & score & Hbest & Hin & Hmax).
  - intros Hnil. apply map_eq_nil in Hnil. now apply order_moves_nil in Hnil.
  - intros m s Hms. apply in_map_iff in Hms.
    destruct Hms as (m' & Heq & _).
    apply (f_equal snd) in Heq. cbn [snd] in Heq. subst s.
    pose proof (search_strict no_move_over (Z.to_nat (max_depth - 1))
                  (push (board_of_fen (fen b)) m') (- INFINITY) INFINITY (-1)
                  (or_intror eq_refl)).
    lia.
  - exists results, best, score.
    split; [now apply root_results|].
    split; [unfold results; rewrite map_map; apply map_id|].
    split.
    { apply Forall_forall. intros [m s] Hms.
      apply in_map_iff in Hms. destruct Hms as (m' & Heq & _).
      injection Heq as <- <-. cbn [fst snd].
      rewrite Z.opp_involutive.
      apply (negamax_returns pop_push); lia. }
    split; [|now split].
    unfold choose_best_move, bind, read, lift.
    rewrite (root_results pop_push) by assumption.
    fold results. cbn [outcome_bind]. unfold ret.
    now rewrite Hbest.
Qed.

(** C1.  Alpha-beta pruning preserves the value: on a board whose [pop]
    undoes [push], for every depth [d >= 0] and colour +1 or -1,
    [negamax(board, d, -INFINITY, INFINITY, color)] returns the score of the
    unpruned full-width search [minimax] to the same depth over the same
    moves and the same [evaluate_board], and leaves the board as it was. *)
Theorem negamax_pruning_preserves_value (pop_push : PopRestores PA)
    (fuel : nat) (depth color : Z) (b : Board) :
  0 <= depth -> (Z.to_nat depth < fuel)%nat ->
  color = 1 \/ color = -1 ->
  negamax fuel depth (- INFINITY) INFINITY color b
  = Ret (minimax (Z.to_nat depth) b color, b).
Proof.
  intros Hd Hfuel Hc.
  rewrite (negamax_returns pop_push) by assumption.
  now rewrite search_full_window.
Qed.

(** C2.  Scheduler totality: for a position with a legal move and a depth of
    at least 1, [pool.map] yields one result per root move, in the order of
    [order_moves], which is a permutation of the legal moves; the score of a
    move is the negated result of [negamax] at depth - 1 with the full
    window and colour -1 on the worker's own copy of the board after the
    move; and [choose_best_move] returns a move whose score is at least the
    score of every root move. *)
Theorem choose_best_move_scheduler_totality (pop_push : PopRestores PA)
    (no_move_over : NoMoveIsGameOver PA) (fuel : nat) (max_depth : Z) (b : Board) :
  1 <= max_depth -> (Z.to_nat (max_depth - 1) < fuel)%nat ->
  legal_moves b <> [] ->
  exists results best score,
    pool_map (evaluate_move fuel)
      (map (fun move => (move, fen b, max_depth)) (order_moves b)) = Ret results
    /\ Permutation (map fst results) (legal_moves b)
    /\ Forall
         (fun res =>
            negamax fuel (max_depth - 1) (- INFINITY) INFINITY (-1)
              (push (board_of_fen (fen b)) (fst res))
            = Ret (- snd res, push (board_of_fen (fen b)) (fst res)))
         results
    /\ choose_best_move fuel max_depth b = Ret (Some best, b)
    /\ In (best, score) results
    /\ (forall m s, In (m, s) results -> s <= score).
Proof.
  intros Hd Hfuel Hmoves.
  destruct (choose_best_move_max pop_push no_move_over fuel max_depth b Hd Hfuel Hmoves)
    as (results & best & score & Hpool & Hfst & Hscores & Hbest & Hin & Hmax).
  exists results, best, score.
  split; [exact Hpool|]. split; [|now repeat split].
  rewrite Hfst. apply order_moves_Permutation.
Qed.

(** C4.  [choose_best_move] returns [None] exactly when there is no legal
    move: with no legal move it returns [None] without raising, and with at
    least one it returns one of the legal moves of the position. *)
Theorem choose_best_move_none_iff_no_move (pop_push : PopRestores PA)
    (no_move_over : NoMoveIsGameOver PA) (fuel : nat) (max_depth : Z) (b : Board) :
  1 <= max_depth -> (Z.to_nat (max_depth - 1) < fuel)%nat ->
  (legal_moves b = [] -> choose_best_move fuel max_depth b = Ret (None, b))
  /\ (legal_moves b <> [] ->
      exists m, choose_best_move fuel max_depth b = Ret (Some m, b)
                /\ In m (legal_moves b)).
Proof.
  intros Hd Hfuel. split.
  - intros Hnil. unfold choose_best_move, bind, read, order_moves.
    now rewrite Hnil.
  - intros Hmoves.
    destruct (choose_best_move_max pop_push no_move_over fuel max_depth b Hd Hfuel Hmoves)
      as (results & best & score & _ & Hfst & _ & Hbest & Hin & _).
    exists best. split; [exact Hbest|].
    apply (Permutation_in _ (order_moves_Permutation b)).
    rewrite <- Hfst. apply (in_map fst) in Hin. exact Hin.
Qed.

(** C6.  Depth-0 identity: [negamax(pos, 0, alpha, beta, c)] returns
    [c * evaluate_board(pos)] for every window and every [c]. *)
Theorem negamax_depth_zero (fuel : nat) (alpha beta color : Z) (b : Board) :
  negamax (S fuel) 0 alpha beta color b = Ret (color * evaluate_board b, b).
Proof.
  cbn [negamax]. unfold bind, read, ret.
  rewrite Z.eqb_refl. cbn [orb].
  reflexivity.
Qed.

(** C7.  Ordering contract: [order_moves] returns a permutation of the legal
    moves sorted by descending score, where a promotion scores the queen's
    weight 900, another capture 1 and any other move 0; so every promotion
    stands before every non-promotion and every capture before every move
    that is neither a capture nor a promotion. *)
Theorem order_moves_contract (b : Board) :
  Permutation (order_moves b) (legal_moves b)
  /\ StronglySorted (key_ge (move_score b)) (order_moves b)
  /\ (forall m,
        move_score b m
        = match promotion m with
          | Some _ => 900
          | None => if is_capture b m then 1 else 0
          end)
  /\ (forall (i j : nat) (p q : Move),
        nth_error (order_moves b) i = Some p ->
        nth_error (order_moves b) j = Some q ->
        promotion p <> None -> promotion q = None -> (i < j)%nat)
  /\ (forall (i j : nat) (p q : Move),
        nth_error (order_moves b) i = Some p ->
        nth_error (order_moves b) j = Some q ->
        is_capture b p = true ->
        is_capture b q = false -> promotion q = None -> (i < j)%nat).
Proof.
  split; [apply order_moves_Permutation|].
  split; [apply sort_desc_sorted|].
  split; [intros m; unfold move_score; now destruct (promotion m)|].
  split; intros i j p q Hp Hq.
  - intros Hpromo Hquiet.
    apply (sorted_greater_key_first (move_score b) (order_moves b)
             (sort_desc_sorted _ _) i j p q Hp Hq).
    unfold move_score. rewrite Hquiet.
    destruct (promotion p); [|congruence].
    destruct (is_capture b q); cbn; lia.
  - intros Hcap Hnocap Hquiet.
    apply (sorted_greater_key_first (move_score b) (order_moves b)
             (sort_desc_sorted _ _) i j p q Hp Hq).
    unfold move_score. rewrite Hquiet, Hnocap, Hcap.
    destruct (promotion p); cbn; lia.
Qed.

(** C8.  Material symmetry: if [mirror] is the colour-mirrored counterpart
    of [b] (every piece on the vertically flipped square, with the other
    colour), then [evaluate_board(mirror) = - evaluate_board(b)].
    [evaluate_board] is the sum over the squares of the board of +weight for
    a white piece and -weight for a black one, with the weights 100, 320,
    330, 500, 900 and 0 for the king. *)
Theorem evaluate_board_material_symmetry (b mirror : Board) :
  color_mirrored b mirror ->
  evaluate_board mirror = - evaluate_board b
  /\ evaluate_board b = sum_over (square_value b) SQUARES_REVERSED
  /\ (forall sq,
        square_value b sq
        = match piece_at b sq with
          | None => 0
          | Some piece =>
              (match color piece with WHITE => 1 | BLACK => -1 end)
              * (match piece_type piece with
                 | PAWN => 100 | KNIGHT => 320 | BISHOP => 330
                 | ROOK => 500 | QUEEN => 900 | KING => 0
                 end)
          end).
Proof.
  intros Hmirror. split; [|split].
  - rewrite !evaluate_board_sum.
    rewrite <- (sum_over_mirror (square_value mirror)), <- sum_over_opp.
    apply sum_over_ext. intros sq Hin.
    apply square_value_swap, Hmirror, In_SQUARES_REVERSED, Hin.
  - apply evaluate_board_sum.
  - intros sq. unfold square_value.
    destruct (piece_at b sq) as [[pt c]|]; [|reflexivity].
    now destruct pt, c.
Qed.

(** C9.  Scores stay below the sentinel: [|evaluate_board(b)| <= 57600 <
    INFINITY]; with colour +1 or -1 every score [negamax] returns at a depth
    [>= 0] has magnitude at most [INFINITY], so negating it is exact and
    would fit a 32-bit integer; and when positions without a legal move are
    game over, the magnitude is strictly below [INFINITY], so a negated
    score is never one of the sentinels. *)
Theorem scores_below_sentinel (pop_push : PopRestores PA)
    (fuel : nat) (depth alpha beta color : Z) (b : Board) :
  0 <= depth -> (Z.to_nat depth < fuel)%nat ->
  color = 1 \/ color = -1 ->
  Z.abs (evaluate_board b) <= 57600 /\ 57600 < INFINITY
  /\ exists score,
       negamax fuel depth alpha beta color b = Ret (score, b)
       /\ Z.abs score <= INFINITY
       /\ - (- score) = score
       /\ - 2 ^ 31 < - score < 2 ^ 31
       /\ (NoMoveIsGameOver PA ->
           Z.abs score < INFINITY
           /\ - score <> - INFINITY /\ - score <> INFINITY).
Proof.
  intros Hd Hfuel Hc.
  pose proof (evaluate_board_bound b) as Hev.
  split; [lia|]. split; [reflexivity|].
  exists (search (Z.to_nat depth) b alpha beta color).
  split; [now apply negamax_returns|].
  pose proof (search_bound (Z.to_nat depth) b alpha beta color Hc) as Hs.
  unfold INFINITY in *.
  split; [lia|]. split; [lia|]. split; [lia|].
  intros no_move_over.
  pose proof (search_strict no_move_over (Z.to_nat depth) b alpha beta color Hc) as Hstrict.
  unfold INFINITY in Hstrict. lia.
Qed.

(** C10.  Board restoration: whenever [negamax] returns, at any depth and
    with any window, the board is the one it was called with, and for a
    depth [>= 0] it does return; [choose_best_move] never changes its board
    (the workers push on their own copies), and for a depth [>= 1] it
    returns. *)
Theorem board_restored (pop_push : PopRestores PA)
    (fuel : nat) (depth alpha beta color : Z) (b : Board) :
  (forall score b', negamax fuel depth alpha beta color b = Ret (score, b') -> b' = b)
  /\ (0 <= depth -> (Z.to_nat depth < fuel)%nat ->
      exists score, negamax fuel depth alpha beta color b = Ret (score, b))
  /\ (forall best b', choose_best_move fuel depth b = Ret (best, b') -> b' = b)
  /\ (1 <= depth -> (Z.to_nat (depth - 1) < fuel)%nat ->
      exists best, choose_best_move fuel depth b = Ret (best, b)).
Proof.
  split; [|split; [|split]].
  - intros score b'. now apply negamax_board.
  - intros Hd Hfuel. eexists. now apply negamax_returns.
  - intros best b'. unfold choose_best_move, bind, read, lift, ret.
    destruct (pool_map _ _); cbn [outcome_bind]; congruence.
  - intros Hd Hfuel. unfold choose_best_move, bind, read, lift.
    rewrite (root_results pop_push) by assumption.
    eexists. reflexivity.
Qed.

(** C3, as amended.  At depth 0, and at any depth on a game-over position,
    [negamax(pos, d, alpha, beta, +1)] is the negation of
    [negamax(pos, d, alpha, beta, -1)]. *)
Theorem negamax_symmetry_at_leaves (fuel : nat) (depth alpha beta : Z) (b : Board) :
  depth = 0 \/ is_game_over b = true ->
  exists score,
    negamax (S fuel) depth alpha beta 1 b = Ret (score, b)
    /\ negamax (S fuel) depth alpha beta (-1) b = Ret (- score, b).
Proof.
  intros Hleaf. exists (evaluate_board b).
  cbn [negamax]. unfold bind, read, ret.
  replace ((depth =? 0) || is_game_over b) with true.
  - split; f_equal; f_equal; lia.
  - symmetry. apply orb_true_iff.
    destruct Hleaf as [-> | ->]; [now left | now right].
Qed.

(** C5, as amended.  [negamax] does not check its depth: with a negative
    depth it never raises; on a game-over position it returns
    [color * evaluate_board(pos)], and on any position it does what it does
    with every other negative depth, since [depth == 0] never holds and only
    game-over positions end the recursion. *)
Theorem negamax_negative_depth_unchecked (pop_push : PopRestores PA)
    (fuel : nat) (depth depth' alpha beta color : Z) (b : Board) :
  depth < 0 -> depth' < 0 ->
  (forall e, negamax fuel depth alpha beta color b <> Raise e)
  /\ (is_game_over b = true ->
      negamax (S fuel) depth alpha beta color b = Ret (color * evaluate_board b, b))
  /\ negamax fuel depth alpha beta color b = negamax fuel depth' alpha beta color b.
Proof.
  intros Hd Hd'. split; [|split].
  - intros e. now apply negamax_no_raise.
  - intros Hover. cbn [negamax]. unfold bind, read, ret.
    now rewrite Hover, orb_true_r.
  - now apply negamax_negative_depth.
Qed.

End Claims.

(** * The claims on concrete positions *)

(** The ordering on a position with promotions, a capture and quiet moves:
    the eight promotions in their original order, then Kxg2, then the two
    quiet king moves. *)
Example order_moves_promotion_race :
  order_moves (board_at promotion_race)
  = [ mkMove a7 b8 (Some QUEEN); mkMove a7 b8 (Some ROOK);
      mkMove a7 b8 (Some BISHOP); mkMove a7 b8 (Some KNIGHT);
      mkMove a7 a8 (Some QUEEN); mkMove a7 a8 (Some ROOK);
      mkMove a7 a8 (Some BISHOP); mkMove a7 a8 (Some KNIGHT);
      mkMove h1 g2 None; mkMove h1 h2 None; mkMove h1 g1 None ].
Proof. reflexivity. Qed.

(** Two plies deep the search takes the pawn: after Kxb2 the window is
    [(0, INFINITY)], and the first reply to Ka2, the promotion to a queen, is
    already a cutoff. *)
Example negamax_king_takes_pawn :
  negamax 3 2 (- INFINITY) INFINITY 1 (board_at king_takes_pawn)
  = Ret (0, board_at king_takes_pawn)
  /\ minimax 2 (board_at king_takes_pawn) 1 = 0
  /\ choose_best_move 3 2 (board_at king_takes_pawn)
     = Ret (Some Kxb2, board_at king_takes_pawn).
Proof. repeat split; vm_compute; reflexivity. Qed.

Lemma negamax_pruning_preserves_value_witness :
  negamax 3 2 (- INFINITY) INFINITY 1 (board_at king_takes_pawn)
  = Ret (minimax (Z.to_nat 2) (board_at king_takes_pawn) 1, board_at king_takes_pawn).
Proof.
  apply (negamax_pruning_preserves_value tree_pop_push);
    [lia | cbn; lia | left; reflexivity].
Defined.

Lemma choose_best_move_scheduler_totality_witness :
  exists results best score,
    pool_map (evaluate_move 3)
      (map (fun move => (move, fen (board_at king_takes_pawn), 2))
         (order_moves (board_at king_takes_pawn))) = Ret results
    /\ Permutation (map fst results) (legal_moves (board_at king_takes_pawn))
    /\ Forall
         (fun res =>
            negamax 3 (2 - 1) (- INFINITY) INFINITY (-1)
              (push (board_of_fen (fen (board_at king_takes_pawn))) (fst res))
            = Ret (- snd res,
                   push (board_of_fen (fen (board_at king_takes_pawn))) (fst res)))
         results
    /\ choose_best_move 3 2 (board_at king_takes_pawn)
       = Ret (Some best, board_at king_takes_pawn)
    /\ In (best, score) results
    /\ (forall m s, In (m, s) results -> s <= score).
Proof.
  apply (choose_best_move_scheduler_totality tree_pop_push tree_no_move_over);
    [lia | cbn; lia | discriminate].
Defined.

Lemma choose_best_move_none_iff_no_move_witness :
  choose_best_move 3 2 (board_at stalemate) = Ret (None, board_at stalemate)
  /\ exists m,
       choose_best_move 3 2 (board_at king_takes_pawn)
       = Ret (Some m, board_at king_takes_pawn)
       /\ In m (legal_moves (board_at king_takes_pawn)).
Proof.
  split.
  - apply (choose_best_move_none_iff_no_move tree_pop_push tree_no_move_over
             3 2 (board_at stalemate)); [lia | cbn; lia | reflexivity].
  - apply (choose_best_move_none_iff_no_move tree_pop_push tree_no_move_over
             3 2 (board_at king_takes_pawn)); [lia | cbn; lia | discriminate].
Defined.

Lemma evaluate_board_material_symmetry_witness :
  evaluate_board (board_at king_takes_pawn_mirror)
  = - evaluate_board (board_at king_takes_pawn)
  /\ evaluate_board (board_at king_takes_pawn) = - 100.
Proof.
  split; [|reflexivity].
  apply (evaluate_board_material_symmetry (board_at king_takes_pawn)
           (board_at king_takes_pawn_mirror) king_takes_pawn_mirrored).
Defined.

Lemma scores_below_sentinel_witness :
  exists score,
    negamax 3 2 (- INFINITY) INFINITY 1 (board_at king_takes_pawn)
    = Ret (score, board_at king_takes_pawn)
    /\ Z.abs score < INFINITY.
Proof.
  destruct (scores_below_sentinel tree_pop_push 3 2 (- INFINITY) INFINITY 1
              (board_at king_takes_pawn))
    as (_ & _ & score & Hret & _ & _ & _ & Hstrict);
    [lia | cbn; lia | left; reflexivity |].
  exists score. split; [exact Hret | apply (Hstrict tree_no_move_over)].
Defined.

Lemma board_restored_witness :
  (exists score,
      negamax 3 2 (- INFINITY) INFINITY 1 (board_at king_takes_pawn)
      = Ret (score, board_at king_takes_pawn))
  /\ (exists best,
        choose_best_move 3 2 (board_at king_takes_pawn)
        = Ret (best, board_at king_takes_pawn)).
Proof.
  destruct (board_restored tree_pop_push 3 2 (- INFINITY) INFINITY 1
              (board_at king_takes_pawn)) as (_ & Hsearch & _ & Hroot).
  split; [apply Hsearch | apply Hroot]; first [lia | cbn; lia].
Defined.

(** C3 fails one ply deep: with colour +1 the search of the position above
    maximises the material after White's move and returns 0 (Kxb2), with
    colour -1 it maximises the negated material and returns 100 (Ka2), and 0
    is not -100. *)
Lemma negamax_symmetry_counterexample :
  negamax 2 1 (- INFINITY) INFINITY 1 (board_at king_takes_pawn)
  = Ret (0, board_at king_takes_pawn)
  /\ negamax 2 1 (- INFINITY) INFINITY (-1) (board_at king_takes_pawn)
     = Ret (100, board_at king_takes_pawn)
  /\ 0 <> - 100.
Proof. repeat split; [vm_compute; reflexivity .. | lia]. Qed.

Lemma negamax_symmetry_at_leaves_witness :
  exists score,
    negamax 1 0 (- INFINITY) INFINITY 1 (board_at king_takes_pawn)
    = Ret (score, board_at king_takes_pawn)
    /\ negamax 1 0 (- INFINITY) INFINITY (-1) (board_at king_takes_pawn)
       = Ret (- score, board_at king_takes_pawn).
Proof.
  apply (negamax_symmetry_at_leaves 0 0 (- INFINITY) INFINITY
           (board_at king_takes_pawn)).
  left. reflexivity.
Defined.

(** C5 fails on the stalemate: called with depth -1 the search raises nothing
    and returns the material balance, the white queen. *)
Lemma negamax_negative_depth_counterexample :
  negamax 1 (-1) (- INFINITY) INFINITY 1 (board_at stalemate)
  = Ret (900, board_at stalemate).
Proof. vm_compute. reflexivity. Qed.

Lemma negamax_negative_depth_unchecked_witness :
  (forall e, negamax 1 (-1) (- INFINITY) INFINITY 1 (board_at stalemate) <> Raise e)
  /\ negamax 1 (-1) (- INFINITY) INFINITY 1 (board_at stalemate)
     = negamax 1 (-7) (- INFINITY) INFINITY 1 (board_at stalemate).
Proof.
  destruct (negamax_negative_depth_unchecked tree_pop_push 1 (-1) (-7)
              (- INFINITY) INFINITY 1 (board_at stalemate))
    as (Hraise & _ & Hsame); [lia | lia |].
  split; [exact Hraise | exact Hsame].
Defined.

(** * Further properties of the engine *)

(** ** The ordering is stable *)

Section SortStable.
Context {A : Type} (key : A -> Z).

(** The new element goes behind the elements with a greater key and in front
    of all the others. *)
Lemma insert_desc_app (x : A) (hi lo : list A) :
  Forall (fun y => key x < key y) hi ->
  Forall (fun y => key y <= key x) lo ->
  insert_desc key x (hi ++ lo) = hi ++ x :: lo.
Proof.
  intros Hhi Hlo.
  induction Hhi as [|y hi Hy _ IH]; cbn [app insert_desc].
  - destruct Hlo as [|y lo Hy _]; [reflexivity|].
    cbn [insert_desc].
    destruct (Z.ltb_spec (key x) (key y)); [lia | reflexivity].
  - destruct (Z.ltb_spec (key x) (key y)); [now rewrite IH | lia].
Qed.

End SortStable.

Section Ordering.
Context {Board Fen : Type} {PA : PositionAdapter Board Fen}.

Lemma move_score_promotion (b : Board) (m : Move) :
  is_promotion m = true -> move_score b m = 900.
Proof.
  unfold is_promotion, move_score.
  destruct (promotion m); [reflexivity | discriminate].
Qed.

Lemma move_score_plain_capture (b : Board) (m : Move) :
  is_plain_capture b m = true -> move_score b m = 1.
Proof.
  unfold is_plain_capture, is_promotion, move_score.
  destruct (promotion m); cbn [negb andb]; [discriminate|].
  now intros ->.
Qed.

Lemma move_score_quiet (b : Board) (m : Move) :
  is_quiet b m = true -> move_score b m = 0.
Proof.
  unfold is_quiet, is_promotion, move_score.
  destruct (promotion m); cbn [negb andb]; [discriminate|].
  now destruct (is_capture b m).
Qed.

Lemma Forall_filter_score (b : Board) (class : Move -> bool) (P : Move -> Prop)
    (l : list Move) :
  (forall m, class m = true -> P m) -> Forall P (filter class l).
Proof.
  intros H. apply Forall_forall. intros m Hm.
  apply filter_In in Hm. now apply H.
Qed.

Lemma sort_desc_blocks (b : Board) (l : list Move) :
  sort_desc (move_score b) l
  = filter is_promotion l ++ filter (is_plain_capture b) l ++ filter (is_quiet b) l.
Proof.
  induction l as [|x l IH]; [reflexivity|].
  cbn [sort_desc filter]. rewrite IH.
  destruct (is_promotion x) eqn:Hpromo.
  - replace (is_plain_capture b x) with false
      by (unfold is_plain_capture; now rewrite Hpromo).
    replace (is_quiet b x) with false by (unfold is_quiet; now rewrite Hpromo).
    apply (insert_desc_app (move_score b) x []
             (filter is_promotion l
              ++ filter (is_plain_capture b) l ++ filter (is_quiet b) l));
      [constructor|].
    rewrite (move_score_promotion b x Hpromo).
    repeat (apply Forall_app; split);
      apply (Forall_filter_score b); intros m Hm.
    + rewrite (move_score_promotion b m Hm). lia.
    + rewrite (move_score_plain_capture b m Hm). lia.
    + rewrite (move_score_quiet b m Hm). lia.
  - destruct (is_capture b x) eqn:Hcap.
    + assert (is_plain_capture b x = true) as Hx
        by (unfold is_plain_capture; now rewrite Hpromo, Hcap).
      rewrite Hx.
      replace (is_quiet b x) with false
        by (unfold is_quiet; now rewrite Hpromo, Hcap).
      cbn [app].
      change (filter is_promotion l
              ++ x :: filter (is_plain_capture b) l ++ filter (is_quiet b) l)
        with (filter is_promotion l
              ++ x :: (filter (is_plain_capture b) l ++ filter (is_quiet b) l)).
      apply insert_desc_app; rewrite (move_score_plain_capture b x Hx).
      * apply (Forall_filter_score b). intros m Hm.
        rewrite (move_score_promotion b m Hm). lia.
      * apply Forall_app; split; apply (Forall_filter_score b); intros m Hm.
        -- rewrite (move_score_plain_capture b m Hm). lia.
        -- rewrite (move_score_quiet b m Hm). lia.
    + assert (is_quiet b x = true) as Hx
        by (unfold is_quiet; now rewrite Hpromo, Hcap).
      rewrite Hx.
      replace (is_plain_capture b x) with false
        by (unfold is_plain_capture; now rewrite Hpromo, Hcap).
      rewrite !app_assoc.
      apply insert_desc_app; rewrite (move_score_quiet b x Hx).
      * apply Forall_app; split; apply (Forall_filter_score b); intros m Hm.
        -- rewrite (move_score_promotion b m Hm). lia.
        -- rewrite (move_score_plain_capture b m Hm). lia.
      * apply (Forall_filter_score b). intros m Hm.
        rewrite (move_score_quiet b m Hm). lia.
Qed.

(** X1.  [order_moves] is the legal moves in three blocks: the promotions,
    then the captures that are not promotions, then the other moves, each
    block in the order [board.legal_moves] gave (the sort is stable). *)
Theorem order_moves_three_blocks (b : Board) :
  order_moves b
  = filter is_promotion (legal_moves b)
    ++ filter (is_plain_capture b) (legal_moves b)
    ++ filter (is_quiet b) (legal_moves b).
Proof. unfold order_moves. apply sort_desc_blocks. Qed.

End Ordering.

(** ** The reduction at the root *)

Section Reduction.
Context {Board Fen : Type} {PA : PositionAdapter Board Fen}.

Lemma pool_map_inv {A B : Type} (f : A -> outcome B) (args : list A) :
  forall results, pool_map f args = Ret results ->
    Forall2 (fun a r => f a = Ret r) args results.
Proof.
  induction args as [|a rest IH]; intros results H; cbn [pool_map] in H.
  - injection H as <-. constructor.
  - destruct (f a) as [r| |] eqn:Ha; cbn [outcome_bind] in H; try discriminate.
    destruct (pool_map f rest) as [rs| |]; cbn [outcome_bind] in H;
      try discriminate.
    injection H as <-. constructor; [exact Ha | now apply IH].
Qed.

Lemma evaluate_move_same_move (fuel : nat) (move move' : Move) (board_fen : Fen)
    (depth eval : Z) :
  evaluate_move fuel (move, board_fen, depth) = Ret (move', eval) -> move' = move.
Proof.
  unfold evaluate_move, bind, board_push, ret.
  destruct (negamax fuel (depth - 1) (- INFINITY) INFINITY (-1)
              (push (board_of_fen board_fen) move)) as [[r b']| |];
    cbn [outcome_bind fst]; [|discriminate..].
  intros H. now injection H as <- _.
Qed.

(** Where the reduction loop stops: either nothing beat the starting value,
    or the result is the first entry with the greatest score. *)
Lemma best_of_loop_first (results : list (Move * Z)) :
  forall (best_move : option Move) (max_eval : Z) best score,
    fold_left
      (fun (acc : option Move * Z) (res : Move * Z) =>
         let '(best_move, max_eval) := acc in
         let '(move, eval) := res in
         if eval >? max_eval then (Some move, eval) else (best_move, max_eval))
      results (best_move, max_eval) = (best, score) ->
    (best = best_move /\ score = max_eval
     /\ forall m s, In (m, s) results -> s <= max_eval)
    \/ (exists pre m post,
          results = pre ++ (m, score) :: post
          /\ best = Some m /\ max_eval < score
          /\ (forall m' s, In (m', s) pre -> s < score)
          /\ (forall m' s, In (m', s) post -> s <= score)).
Proof.
  induction results as [|[move eval] rest IH];
    intros best_move max_eval best score Hfold; cbn [fold_left] in Hfold.
  - injection Hfold as <- <-. left. repeat split. intros m s [].
  - rewrite Z.gtb_ltb in Hfold.
    destruct (Z.ltb_spec max_eval eval) as [Hgt|Hle];
      destruct (IH _ _ _ _ Hfold)
        as [(-> & -> & Hall)|(pre & m & post & -> & -> & Hlt & Hpre & Hpost)].
    + right. exists [], move, rest.
      split; [reflexivity|]. split; [reflexivity|]. split; [exact Hgt|].
      split; [intros m' s []|exact Hall].
    + right. exists ((move, eval) :: pre), m, post.
      split; [reflexivity|]. split; [reflexivity|]. split; [lia|].
      split; [|exact Hpost].
      intros m' s [Heq|Hin]; [injection Heq as _ <-; lia | now apply (Hpre m')].
    + left. split; [reflexivity|]. split; [reflexivity|].
      intros m s [Heq|Hin]; [injection Heq as _ <-; lia | now apply (Hall m)].
    + right. exists ((move, eval) :: pre), m, post.
      split; [reflexivity|]. split; [reflexivity|]. split; [exact Hlt|].
      split; [|exact Hpost].
      intros m' s [Heq|Hin]; [injection Heq as _ <-; lia | now apply (Hpre m')].
Qed.

Lemma best_of_first (results : list (Move * Z)) :
  (fst (best_of results) = None /\
   forall m s, In (m, s) results -> s <= - INFINITY)
  \/ (exists pre best score post,
        results = pre ++ (best, score) :: post
        /\ fst (best_of results) = Some best /\ - INFINITY < score
        /\ (forall m s, In (m, s) pre -> s < score)
        /\ (forall m s, In (m, s) post -> s <= score)).
Proof.
  unfold best_of.
  destruct (fold_left _ results (None, - INFINITY)) as [best score] eqn:Hfold.
  apply best_of_loop_first in Hfold.
  destruct Hfold as [(-> & -> & Hall)|(pre & m & post & -> & -> & Hlt & Hpre & Hpost)].
  - left. split; [reflexivity | exact Hall].
  - right. now exists pre, m, score, post.
Qed.

Lemma choose_best_move_inv (fuel : nat) (max_depth : Z) (b b' : Board)
    (best : option Move) :
  choose_best_move fuel max_depth b = Ret (best, b') ->
  exists results,
    pool_map (evaluate_move fuel)
      (map (fun move => (move, fen b, max_depth)) (order_moves b)) = Ret results
    /\ best = fst (best_of results) /\ b' = b.
Proof.
  unfold choose_best_move, bind, read, lift, ret.
  destruct (pool_map _ _) as [results| |]; cbn [outcome_bind]; try discriminate.
  intros H. injection H as <- <-. now exists results.
Qed.

(** X2.  All or nothing: when [choose_best_move] returns, every root move of
    [order_moves] has been searched to the end, in that order, and the answer
    is the reduction of all the results; no result belongs to another move. *)
Theorem choose_best_move_all_results (fuel : nat) (max_depth : Z) (b b' : Board)
    (best : option Move) :
  choose_best_move fuel max_depth b = Ret (best, b') ->
  exists results,
    Forall2
      (fun move res =>
         evaluate_move fuel (move, fen b, max_depth) = Ret res /\ fst res = move)
      (order_moves b) results
    /\ best = fst (best_of results).
Proof.
  intros H. apply choose_best_move_inv in H.
  destruct H as (results & Hpool & -> & _).
  exists results. split; [|reflexivity].
  apply pool_map_inv in Hpool.
  remember (order_moves b) as moves eqn:Hm. clear Hm.
  revert results Hpool.
  induction moves as [|m rest IH]; intros results Hpool; cbn [map] in Hpool;
    inversion Hpool as [|a r l l' Ha Hrest]; subst; constructor.
  - split; [exact Ha|]. destruct r as [m' s].
    now apply evaluate_move_same_move in Ha.
  - now apply IH.
Qed.

(** X3.  Ties go to the first move: the move [choose_best_move] returns is the
    first one, in the order of [order_moves], whose score is the greatest;
    every result before it is strictly smaller. *)
Theorem choose_best_move_first_maximum (fuel : nat) (max_depth : Z) (b b' : Board)
    (best : Move) :
  choose_best_move fuel max_depth b = Ret (Some best, b') ->
  exists pre score post,
    pool_map (evaluate_move fuel)
      (map (fun move => (move, fen b, max_depth)) (order_moves b))
    = Ret (pre ++ (best, score) :: post)
    /\ - INFINITY < score
    /\ (forall m s, In (m, s) pre -> s < score)
    /\ (forall m s, In (m, s) post -> s <= score).
Proof.
  intros H. apply choose_best_move_inv in H.
  destruct H as (results & Hpool & Hbest & _).
  destruct (best_of_first results)
    as [[Hnone _]|(pre & m & score & post & -> & Hsome & Hlow & Hpre & Hpost)].
  - congruence.
  - rewrite Hsome in Hbest. injection Hbest as ->.
    now exists pre, score, post.
Qed.

(** X4.  [choose_best_move] returns [None] exactly when no root move scored
    above the seed [-INFINITY] of the reduction, be it that there are no
    moves. *)
Theorem choose_best_move_none_iff_no_score (fuel : nat) (max_depth : Z) (b : Board)
    (results : list (Move * Z)) :
  pool_map (evaluate_move fuel)
    (map (fun move => (move, fen b, max_depth)) (order_moves b)) = Ret results ->
  choose_best_move fuel max_depth b = Ret (None, b)
  <-> (forall m s, In (m, s) results -> s <= - INFINITY).
Proof.
  intros Hpool.
  unfold choose_best_move, bind, read, lift, ret.
  rewrite Hpool. cbn [outcome_bind].
  destruct (best_of_first results)
    as [[Hnone Hall]|(pre & m & score & post & Hres & Hsome & Hlow & _)].
  - rewrite Hnone. split; [intros _; exact Hall | reflexivity].
  - rewrite Hsome. split; [discriminate|].
    intros Hall. specialize (Hall m score).
    rewrite Hres in Hall.
    specialize (Hall (in_elt _ _ _)). lia.
Qed.

End Reduction.

(** ** More on the search *)

Section SearchMore.
Context {Board Fen : Type} {PA : PositionAdapter Board Fen}.

(** The loop returns the value it started from or the negated result of one
    of the recursive calls. *)
Lemma search_loop_choice (rec : Board -> Z -> Z -> Z -> Z) (b : Board)
    (beta color : Z) :
  forall moves max_eval alpha,
    search_loop rec b beta color moves max_eval alpha = max_eval
    \/ exists m alpha',
         In m moves
         /\ search_loop rec b beta color moves max_eval alpha
            = - rec (push b m) (- beta) alpha' (- color).
Proof.
  induction moves as [|m rest IH]; intros max_eval alpha; cbn [search_loop].
  - now left.
  - cbv zeta.
    set (eval := - rec (push b m) (- beta) (- alpha) (- color)).
    assert (forall r,
               r = (if eval >? max_eval then eval else max_eval) ->
               r = max_eval
               \/ exists m0 alpha',
                    In m0 (m :: rest)
                    /\ r = - rec (push b m0) (- beta) alpha' (- color)) as Hhere.
    { intros r ->. destruct (eval >? max_eval); [right | now left].
      exists m, (- alpha). split; [now left | reflexivity]. }
    destruct (_ >=? beta); [now apply Hhere|].
    match goal with
    | |- context [search_loop rec b beta color rest ?me ?a] =>
        destruct (IH me a) as [Heq|(m0 & alpha' & Hin & Heq)]
    end.
    + rewrite Heq. now apply Hhere.
    + right. exists m0, alpha'. split; [now right | exact Heq].
Qed.

Lemma search_attained (no_move_over : NoMoveIsGameOver PA) (depth : nat) :
  forall (b : Board) (alpha beta color : Z), color = 1 \/ color = -1 ->
    exists leaf,
      line_to depth b leaf
      /\ search depth b alpha beta color = color * evaluate_board leaf.
Proof.
  induction depth as [|depth IH]; intros b alpha beta color Hc.
  - exists b. split; [constructor | reflexivity].
  - pose proof (search_strict no_move_over (S depth) b alpha beta color Hc) as Hstrict.
    cbn [search] in *.
    destruct (is_game_over b) eqn:Hover.
    + exists b. split; [now apply line_over | reflexivity].
    + destruct (search_loop_choice (search depth) b beta color (order_moves b)
                  (- INFINITY) alpha) as [Heq|(m & alpha' & Hin & Heq)]; [lia|].
      destruct (IH (push b m) (- beta) alpha' (- color)) as (leaf & Hline & Hleaf);
        [lia|].
      exists leaf. split.
      * apply (line_move depth b m leaf Hover); [|exact Hline].
        apply (Permutation_in _ (order_moves_Permutation b) Hin).
      * rewrite Heq, Hleaf. lia.
Qed.

(** X5.  Whatever the window, the score [negamax] returns bounds the exact
    value [minimax] the way a fail-soft alpha-beta should: a score at or below
    [alpha] is an upper bound, a score at or above [beta] a lower bound, and a
    score strictly inside the window is the exact value. *)
Theorem negamax_window_bound (pop_push : PopRestores PA)
    (fuel : nat) (depth alpha beta color : Z) (b : Board) :
  0 <= depth -> (Z.to_nat depth < fuel)%nat ->
  - INFINITY <= alpha -> alpha < beta -> beta <= INFINITY ->
  exists score,
    negamax fuel depth alpha beta color b = Ret (score, b)
    /\ (score <= alpha -> minimax (Z.to_nat depth) b color <= score)
    /\ (alpha < score < beta -> score = minimax (Z.to_nat depth) b color)
    /\ (beta <= score -> score <= minimax (Z.to_nat depth) b color).
Proof.
  intros Hd Hfuel Ha Hab Hb.
  exists (search (Z.to_nat depth) b alpha beta color).
  split; [now apply negamax_returns|].
  destruct (search_fail_soft (Z.to_nat depth) b alpha beta color) as (H1 & H2 & H3);
    [lia | lia |].
  repeat split; [exact H1 | | exact H3].
  intros H. symmetry. now apply H2.
Qed.

(** X6.  The score is the material of a position the search reached: for
    colour +1 or -1 and any window, [negamax] returns
    [color * evaluate_board(leaf)] for a position [leaf] that lies at most
    [depth] legal moves below the board, at the horizon or where the game is
    over; it is never a sentinel. *)
Theorem negamax_score_attained (pop_push : PopRestores PA)
    (no_move_over : NoMoveIsGameOver PA)
    (fuel : nat) (depth alpha beta color : Z) (b : Board) :
  0 <= depth -> (Z.to_nat depth < fuel)%nat ->
  color = 1 \/ color = -1 ->
  exists leaf,
    line_to (Z.to_nat depth) b leaf
    /\ negamax fuel depth alpha beta color b = Ret (color * evaluate_board leaf, b).
Proof.
  intros Hd Hfuel Hc.
  destruct (search_attained no_move_over (Z.to_nat depth) b alpha beta color Hc)
    as (leaf & Hline & Hleaf).
  exists leaf. split; [exact Hline|].
  rewrite <- Hleaf. now apply negamax_returns.
Qed.

(** X7.  Pruning does not change the move chosen: [choose_best_move] returns
    what the reduction returns on the scores of the unpruned search, the
    negated [minimax] value at depth - 1 with colour -1 of the position after
    each root move. *)
Theorem choose_best_move_unpruned (pop_push : PopRestores PA)
    (fuel : nat) (max_depth : Z) (b : Board) :
  1 <= max_depth -> (Z.to_nat (max_depth - 1) < fuel)%nat ->
  choose_best_move fuel max_depth b
  = Ret (fst (best_of
                (map (fun move =>
                        (move, - minimax (Z.to_nat (max_depth - 1))
                                   (push (board_of_fen (fen b)) move) (-1)))
                   (order_moves b))), b).
Proof.
  intros Hd Hfuel.
  unfold choose_best_move, bind, read, lift.
  rewrite (root_results pop_push) by assumption.
  cbn [outcome_bind]. unfold ret. do 4 f_equal.
  apply map_ext. intros m.
  now rewrite search_full_window by (now right).
Qed.

(** X8.  At depth 1 the score of a root move is [evaluate_board] of the
    position after it, White's material minus Black's: [choose_best_move]
    returns the first move of [order_moves] that leaves the greatest such
    balance, and it never asks the board whose turn it is. *)
Theorem choose_best_move_depth_one (pop_push : PopRestores PA)
    (fuel : nat) (b : Board) :
  choose_best_move (S fuel) 1 b
  = Ret (fst (best_of
                (map (fun move =>
                        (move, evaluate_board (push (board_of_fen (fen b)) move)))
                   (order_moves b))), b).
Proof.
  unfold choose_best_move, bind, read, lift.
  rewrite (root_results pop_push) by (cbn; lia).
  cbn [outcome_bind]. unfold ret. do 4 f_equal.
  apply map_ext. intros m.
  change (Z.to_nat (1 - 1)) with 0%nat. cbn [search]. f_equal. lia.
Qed.

(** X9.  [ChessEngine.make_move] answers for the position of the FEN it is
    given and for nothing else: whatever board the engine held before, it
    returns [None] when that position has no legal move and otherwise one of
    its legal moves, and it leaves the engine's board set to that position. *)
Theorem make_move_legal (pop_push : PopRestores PA)
    (no_move_over : NoMoveIsGameOver PA)
    (fuel : nat) (board_fen : Fen) (held : Board) :
  (6 < fuel)%nat ->
  (legal_moves (board_of_fen board_fen) = [] ->
   make_move fuel board_fen held = Ret (None, board_of_fen board_fen))
  /\ (legal_moves (board_of_fen board_fen) <> [] ->
      exists m,
        make_move fuel board_fen held = Ret (Some m, board_of_fen board_fen)
        /\ In m (legal_moves (board_of_fen board_fen))).
Proof.
  intros Hfuel.
  unfold make_move, bind at 1, board_set_fen.
  split.
  - intros Hnil. unfold choose_best_move, bind, read, order_moves.
    now rewrite Hnil.
  - intros Hmoves.
    destruct (choose_best_move_max pop_push no_move_over fuel 7
                (board_of_fen board_fen)) as
      (results & best & score & _ & Hfst & _ & Hbest & Hin & _);
      [lia | cbn; lia | exact Hmoves |].
    exists best. split; [exact Hbest|].
    apply (Permutation_in _ (order_moves_Permutation (board_of_fen board_fen))).
    rewrite <- Hfst. apply (in_map fst) in Hin. exact Hin.
Qed.

End SearchMore.

(** ** More on the material evaluation *)

Section MaterialMore.
Context {Board Fen : Type} {PA : PositionAdapter Board Fen}.

Lemma evaluate_board_mirror (b mirror : Board) :
  color_mirrored b mirror -> evaluate_board mirror = - evaluate_board b.
Proof.
  intros Hmirror. rewrite !evaluate_board_sum.
  rewrite <- (sum_over_mirror (square_value mirror)), <- sum_over_opp.
  apply sum_over_ext. intros sq Hin.
  apply square_value_swap, Hmirror, In_SQUARES_REVERSED, Hin.
Qed.

Lemma sum_over_update (f f' : Square -> Z) (sq : Square) (squares : list Square) :
  NoDup squares -> In sq squares ->
  (forall s, In s squares -> s <> sq -> f' s = f s) ->
  sum_over f' squares = sum_over f squares - f sq + f' sq.
Proof.
  induction 1 as [|x l Hx Hl IH]; intros Hin Hsame; [destruct Hin|].
  cbn [sum_over fold_right]. fold (sum_over f l) (sum_over f' l).
  destruct Hin as [->|Hin].
  - rewrite (sum_over_ext f' f l); [lia|].
    intros s Hs. apply Hsame; [now right | congruence].
  - rewrite IH; [|exact Hin | intros s Hs; apply Hsame; now right].
    rewrite (Hsame x); [lia | now left | congruence].
Qed.

Lemma SQUARES_REVERSED_NoDup : NoDup SQUARES_REVERSED.
Proof.
  unfold SQUARES_REVERSED.
  apply (Permutation_NoDup (Permutation_rev (seq 0 64))), seq_NoDup.
Qed.

Lemma SQUARES_REVERSED_In (sq : Square) : (sq < 64)%nat -> In sq SQUARES_REVERSED.
Proof.
  intros H. unfold SQUARES_REVERSED. rewrite <- in_rev, in_seq. lia.
Qed.

(** X10.  A position that is its own colour-mirrored counterpart, such as
    the starting position, evaluates to 0. *)
Theorem evaluate_board_self_mirrored (b : Board) :
  color_mirrored b b -> evaluate_board b = 0.
Proof.
  intros H. apply evaluate_board_mirror in H. lia.
Qed.

(** X11.  The evaluation is local: if two boards differ on one square only,
    their evaluations differ by what stands on that square, the signed weight
    on the one board minus the signed weight on the other. *)
Theorem evaluate_board_one_square (b b' : Board) (sq : Square) :
  (sq < 64)%nat ->
  (forall s, (s < 64)%nat -> s <> sq -> piece_at b' s = piece_at b s) ->
  evaluate_board b' = evaluate_board b - square_value b sq + square_value b' sq.
Proof.
  intros Hsq Hsame. rewrite !evaluate_board_sum.
  apply sum_over_update.
  - apply SQUARES_REVERSED_NoDup.
  - now apply SQUARES_REVERSED_In.
  - intros s Hs Hne. unfold square_value.
    now rewrite (Hsame s (In_SQUARES_REVERSED s Hs) Hne).
Qed.

(** X12.  Pieces without an entry in [material_weights] count nothing: a
    board on which only kings stand evaluates to 0. *)
Theorem evaluate_board_only_kings (b : Board) :
  (forall sq piece, (sq < 64)%nat -> piece_at b sq = Some piece ->
                    piece_type piece = KING) ->
  evaluate_board b = 0.
Proof.
  intros Hkings. rewrite evaluate_board_sum.
  rewrite (sum_over_ext (square_value b) (fun _ => 0)).
  - generalize SQUARES_REVERSED. intros l.
    induction l as [|x l IH]; [reflexivity|].
    cbn [sum_over fold_right]. fold (sum_over (fun _ : Square => 0) l). lia.
  - intros sq Hin. unfold square_value.
    destruct (piece_at b sq) as [piece|] eqn:Hp; [|reflexivity].
    rewrite (Hkings sq piece (In_SQUARES_REVERSED sq Hin) Hp).
    cbn. now destruct (Color_eqb (color piece) WHITE).
Qed.

End MaterialMore.

(** * The further properties on concrete positions *)

Lemma symmetric_pawns_mirrored :
  color_mirrored (board_at symmetric_pawns) (board_at symmetric_pawns).
Proof.
  intros sq Hsq.
  do 64 (destruct sq as [|sq]; [reflexivity|]).
  exfalso. lia.
Qed.

Lemma rook_for_queen_one_square (s : Square) :
  (s < 64)%nat -> s <> 53%nat ->
  piece_at (board_at rook_for_queen) s = piece_at (board_at stalemate) s.
Proof.
  intros Hs Hne.
  do 64 (destruct s as [|s]; [first [reflexivity | congruence]|]).
  exfalso. lia.
Qed.

Lemma after_Kxb2_only_kings (sq : Square) (piece : Piece) :
  (sq < 64)%nat -> piece_at (board_at after_Kxb2) sq = Some piece ->
  piece_type piece = KING.
Proof.
  intros Hsq.
  do 64 (destruct sq as [|sq];
         [cbn; intros H; first [discriminate | now injection H as <-]|]).
  exfalso. lia.
Qed.

Lemma choose_best_move_all_results_witness :
  exists results,
    Forall2
      (fun move res =>
         evaluate_move 3 (move, fen (board_at king_takes_pawn), 2) = Ret res
         /\ fst res = move)
      (order_moves (board_at king_takes_pawn)) results
    /\ Some Kxb2 = fst (best_of results).
Proof.
  apply (choose_best_move_all_results 3 2 (board_at king_takes_pawn)
           (board_at king_takes_pawn) (Some Kxb2)).
  vm_compute. reflexivity.
Defined.

Lemma choose_best_move_first_maximum_witness :
  exists pre score post,
    pool_map (evaluate_move 3)
      (map (fun move => (move, fen (board_at king_takes_pawn), 2))
         (order_moves (board_at king_takes_pawn)))
    = Ret (pre ++ (Kxb2, score) :: post)
    /\ - INFINITY < score
    /\ (forall m s, In (m, s) pre -> s < score)
    /\ (forall m s, In (m, s) post -> s <= score).
Proof.
  apply (choose_best_move_first_maximum 3 2 (board_at king_takes_pawn)
           (board_at king_takes_pawn) Kxb2).
  vm_compute. reflexivity.
Defined.

Lemma choose_best_move_none_iff_no_score_witness :
  choose_best_move 3 2 (board_at stalemate) = Ret (None, board_at stalemate)
  <-> (forall m s, In (m, s) (@nil (Move * Z)) -> s <= - INFINITY).
Proof.
  apply (choose_best_move_none_iff_no_score 3 2 (board_at stalemate) []).
  reflexivity.
Defined.

Lemma negamax_window_bound_witness :
  exists score,
    negamax 3 2 (-50) 50 1 (board_at king_takes_pawn)
    = Ret (score, board_at king_takes_pawn)
    /\ (score <= -50 -> minimax (Z.to_nat 2) (board_at king_takes_pawn) 1 <= score)
    /\ (-50 < score < 50 -> score = minimax (Z.to_nat 2) (board_at king_takes_pawn) 1)
    /\ (50 <= score -> score <= minimax (Z.to_nat 2) (board_at king_takes_pawn) 1).
Proof.
  apply (negamax_window_bound tree_pop_push 3 2 (-50) 50 1 (board_at king_takes_pawn));
    first [unfold INFINITY; lia | cbn; lia].
Defined.

Lemma negamax_score_attained_witness :
  exists leaf,
    line_to (Z.to_nat 2) (board_at king_takes_pawn) leaf
    /\ negamax 3 2 (- INFINITY) INFINITY 1 (board_at king_takes_pawn)
       = Ret (1 * evaluate_board leaf, board_at king_takes_pawn).
Proof.
  apply (negamax_score_attained tree_pop_push tree_no_move_over 3 2
           (- INFINITY) INFINITY 1 (board_at king_takes_pawn));
    [lia | cbn; lia | left; reflexivity].
Defined.

Lemma choose_best_move_unpruned_witness :
  choose_best_move 3 2 (board_at king_takes_pawn)
  = Ret (fst (best_of
                (map (fun move =>
                        (move, - minimax (Z.to_nat (2 - 1))
                                   (push (board_of_fen (fen (board_at king_takes_pawn))) move)
                                   (-1)))
                   (order_moves (board_at king_takes_pawn)))),
         board_at king_takes_pawn).
Proof.
  apply (choose_best_move_unpruned tree_pop_push 3 2 (board_at king_takes_pawn));
    [lia | cbn; lia].
Defined.

Lemma choose_best_move_depth_one_witness :
  choose_best_move 1 1 (board_at king_takes_pawn)
  = Ret (fst (best_of
                (map (fun move =>
                        (move, evaluate_board
                                 (push (board_of_fen (fen (board_at king_takes_pawn))) move)))
                   (order_moves (board_at king_takes_pawn)))),
         board_at king_takes_pawn).
Proof.
  apply (choose_best_move_depth_one tree_pop_push 0 (board_at king_takes_pawn)).
Defined.

Lemma make_move_legal_witness :
  make_move 7 stalemate (board_at king_takes_pawn) = Ret (None, board_at stalemate)
  /\ exists m,
       make_move 7 king_takes_pawn (board_at stalemate)
       = Ret (Some m, board_at king_takes_pawn)
       /\ In m (legal_moves (board_at king_takes_pawn)).
Proof.
  split.
  - apply (make_move_legal tree_pop_push tree_no_move_over 7 stalemate
             (board_at king_takes_pawn)); [lia | reflexivity].
  - apply (make_move_legal tree_pop_push tree_no_move_over 7 king_takes_pawn
             (board_at stalemate)); [lia | discriminate].
Defined.

Lemma evaluate_board_self_mirrored_witness :
  evaluate_board (board_at symmetric_pawns) = 0.
Proof.
  apply (evaluate_board_self_mirrored (board_at symmetric_pawns)
           symmetric_pawns_mirrored).
Defined.

Lemma evaluate_board_one_square_witness :
  evaluate_board (board_at rook_for_queen)
  = evaluate_board (board_at stalemate)
    - square_value (board_at stalemate) 53%nat
    + square_value (board_at rook_for_queen) 53%nat.
Proof.
  apply (evaluate_board_one_square (board_at stalemate) (board_at rook_for_queen) 53%nat);
    [lia | exact rook_for_queen_one_square].
Defined.

Lemma evaluate_board_only_kings_witness :
  evaluate_board (board_at after_Kxb2) = 0.
Proof.
  apply (evaluate_board_only_kings (board_at after_Kxb2) after_Kxb2_only_kings).
Defined.

(** ** A depth below 1 at the root *)

Section RootDepth.
Context {Board Fen : Type} {PA : PositionAdapter Board Fen}.

Lemma pool_map_ext {A A' B : Type} (f : A -> outcome B) (f' : A' -> outcome B)
    (g : Move -> A) (g' : Move -> A') (moves : list Move) :
  (forall m, f (g m) = f' (g' m)) ->
  pool_map f (map g moves) = pool_map f' (map g' moves).
Proof.
  intros H. induction moves as [|m rest IH]; [reflexivity|].
  cbn [map pool_map]. now rewrite H, IH.
Qed.

(** X13.  [choose_best_move] does not check its depth either: every depth
    below 1 gives the workers a negative depth, so all of them are answered
    alike, by a search that only game-over positions end. *)
Theorem choose_best_move_depth_below_one (fuel : nat) (max_depth max_depth' : Z)
    (b : Board) :
  max_depth < 1 -> max_depth' < 1 ->
  choose_best_move fuel max_depth b = choose_best_move fuel max_depth' b.
Proof.
  intros Hd Hd'. unfold choose_best_move, bind, read.
  rewrite (pool_map_ext (evaluate_move fuel) (evaluate_move fuel)
             (fun move => (move, fen b, max_depth))
             (fun move => (move, fen b, max_depth')) (order_moves b));
    [reflexivity|].
  intros m. unfold evaluate_move, bind, board_push.
  now rewrite (negamax_negative_depth fuel (max_depth - 1) (max_depth' - 1))
    by lia.
Qed.

End RootDepth.

Lemma choose_best_move_depth_below_one_witness :
  choose_best_move 5 0 (board_at king_takes_pawn)
  = choose_best_move 5 (-3) (board_at king_takes_pawn).
Proof.
  apply (choose_best_move_depth_below_one 5 0 (-3) (board_at king_takes_pawn)); lia.
Defined.
